(** * Object-reuse pool ([container/pool/pool.go]): model and properties

    The pool keeps idle items in a double-ended store, stamps every item
    with an expiry timestamp when it is put back, hands items out again
    from the front, and is swept once a second by a recurring timer job.

    The embedding is sequential: every pool operation is one atomic step
    on the pool, the clock is an input, and the user callbacks act on an
    abstract environment [Env] that is threaded through the calls. *)

From Stdlib Require Import ZArith Ascii String List Bool Lia.
Import ListNotations.
Local Open Scope list_scope.
Local Open Scope Z_scope.

(** ** 64-bit signed integers ([int64], [time.Duration]) *)

Module Int64.

Definition min_int : Z := - 2 ^ 63.
Definition max_int : Z := 2 ^ 63 - 1.

Definition in_range (z : Z) : Prop := min_int <= z <= max_int.

(** Two's complement wrap-around of a mathematical integer. *)
Definition wrap (z : Z) : Z := (z + 2 ^ 63) mod 2 ^ 64 - 2 ^ 63.

(** Go's [+] on [int64]. *)
Definition add (a b : Z) : Z := wrap (a + b).

(** Go's [/] on [int64]: the quotient is truncated toward zero. *)
Definition div (a b : Z) : Z := wrap (Z.quot a b).

End Int64.

(** ** Errors

    [errors.New(msg)] builds an error that carries its message; the model
    identifies an error with that message. *)

Definition error : Type := string.
Definition errors_New (msg : string) : error := msg.

(** The two errors the pool itself produces. *)
Definition PoolClosed : error := errors_New "pool is closed".
Definition PoolEmpty : error := errors_New "pool is empty".

(** ** What [timer.Exit()] does to the job that calls it *)

(** Modelled from the spec: package [utils/os/timer] is not among the
    sources.  The spec only says that the call signals the scheduler that
    the recurring task should not run again.  Whether the call also ends
    the running invocation (it unwinds the job, as a panic caught by the
    scheduler would) or comes back to its caller is left open here and is
    a parameter of the sweep. *)
Inductive ExitBehaviour : Type :=
| ExitUnwinds   (* the call does not come back: the invocation ends *)
| ExitReturns.  (* the call comes back and the job runs on *)

Section PoolModel.

(** [V] are the non-nil dynamic values a caller can store; [Env] is the
    part of the world the user callbacks read and write. *)
Context {V Env : Type}.

(** Go's [interface{}]: [None] is the nil interface value. *)
Definition any : Type := option V.
Definition nil_any : any := None.

(** type poolItem struct *)
Record poolItem : Type := mkItem {
  expire : Z;     (* Expire timestamp in milliseconds. *)
  value : any     (* Item value. *)
}.

(** Creation and destruction callbacks.  A call may have effects, so it
    maps the environment before the call to the one after it. *)
Definition NewFunc_t : Type := Env -> (any * option error) * Env.
Definition ExpireFunc_t : Type := any -> Env -> Env.

(** *** The item store *)

(** Modelled from the spec: package [utils/container/list] is not among
    the sources.  Section 4.1 of the spec describes it as an ordered
    sequence with push-to-back, push-to-front, pop-from-front (or
    "empty"), remove-all and a length query. *)
Definition List : Type := list poolItem.

Definition PushBack (item : poolItem) (l : List) : List := l ++ [item].
Definition PushFront (item : poolItem) (l : List) : List := item :: l.
Definition PopFront (l : List) : option poolItem * List :=
  match l with
  | [] => (None, [])
  | r :: l' => (Some r, l')
  end.
Definition RemoveAll (l : List) : List := [].
Definition Len (l : List) : Z := Z.of_nat (length l).

(** type Pool struct.  The field [list] of the source is [list_] here. *)
Record Pool : Type := mkPool {
  list_ : List;                       (* Available/idle items list. *)
  closed : bool;                      (* Whether the pool is closed. *)
  TTL : Z;                            (* Time To Live, in nanoseconds. *)
  NewFunc : option NewFunc_t;         (* nil when absent *)
  ExpireFunc : option ExpireFunc_t    (* nil when absent *)
}.

Definition set_list (p : Pool) (l : List) : Pool :=
  mkPool l (closed p) (TTL p) (NewFunc p) (ExpireFunc p).

Definition set_closed (p : Pool) (b : bool) : Pool :=
  mkPool (list_ p) b (TTL p) (NewFunc p) (ExpireFunc p).

(** func New.  The variadic [expireFunc] is a slice; only its first
    element is used.  The registration of the sweep with the timer has
    no effect on the pool value and is not part of the result. *)
Definition New (ttl : Z) (newFunc : option NewFunc_t)
    (expireFunc : list (option ExpireFunc_t)) : Pool :=
  mkPool [] false ttl newFunc
    (match expireFunc with
     | f :: _ => f
     | [] => None
     end).

(** func (p *Pool) Put.  [now] is the reading of
    [vtime.TimestampMilli()], which is taken only when [TTL] is not 0. *)
Definition Put (now : Z) (v : any) (p : Pool) : option error * Pool :=
  if closed p then (Some PoolClosed, p)
  else
    let item :=
      if TTL p =? 0 then mkItem 0 v
      else mkItem (Int64.add now (Int64.div (TTL p) 1000000)) v in
    (None, set_list p (PushBack item (list_ p))).

(** The loop shared by [Clear] and by the closed branch of the sweep:
    pop the front item and hand its value to [ExpireFunc], until
    [PopFront] finds the store empty.  Returns the store and the
    environment the loop leaves behind. *)
Fixpoint drain (f : ExpireFunc_t) (l : List) (env : Env) : List * Env :=
  match l with
  | [] => ([], env)
  | r :: l' => drain f l' (f (value r) env)
  end.

(** func (p *Pool) Clear *)
Definition Clear (p : Pool) (env : Env) : Pool * Env :=
  match ExpireFunc p with
  | Some f => let '(l, env') := drain f (list_ p) env in (set_list p l, env')
  | None => (set_list p (RemoveAll (list_ p)), env)
  end.

(** The loop of [Get] on an open pool.  [clk k] is the [k]-th reading of
    [vtime.TimestampMilli()] made by this call; the clock is read once
    for every popped item whose [expire] is not 0, and [n] counts the
    readings made so far.  The result is the item [f] the loop returns
    from (if any) and the store it leaves. *)
Fixpoint Get_loop (clk : nat -> Z) (n : nat) (l : List)
    : option poolItem * List :=
  match l with
  | [] => (None, [])
  | f :: l' =>
      if (expire f =? 0) || (expire f >? clk n) then (Some f, l')
      else Get_loop clk (S n) l'
  end.

(** func (p *Pool) Get *)
Definition Get (clk : nat -> Z) (p : Pool) (env : Env)
    : (any * option error) * Pool * Env :=
  let '(r, l) :=
    if closed p then (None, list_ p) else Get_loop clk 0 (list_ p) in
  match r with
  | Some f => ((value f, None), set_list p l, env)
  | None =>
      match NewFunc p with
      | Some newf => let '(res, env') := newf env in (res, set_list p l, env')
      | None => ((nil_any, Some PoolEmpty), set_list p l, env)
      end
  end.

(** func (p *Pool) Size *)
Definition Size (p : Pool) : Z := Len (list_ p).

(** func (p *Pool) Close *)
Definition Close (p : Pool) : Pool := set_closed p true.

(** [p.ExpireFunc(v)] guarded by [p.ExpireFunc != nil]. *)
Definition callExpire (p : Pool) (v : any) (env : Env) : Env :=
  match ExpireFunc p with
  | Some f => f v env
  | None => env
  end.

(** The expiration loop of [checkExpireItems], with [timestampMilli]
    captured before the loop and [latestExpire] carried from one
    iteration to the next. *)
Fixpoint expireLoop (p : Pool) (timestampMilli latestExpire : Z)
    (l : List) (env : Env) {struct l} : List * Env :=
  if latestExpire >? timestampMilli then (l, env)
  else
    match l with
    | [] => ([], env)
    | item :: l' =>
        if expire item >? timestampMilli then (PushFront item l', env)
        else expireLoop p timestampMilli (expire item) l'
               (callExpire p (value item) env)
    end.

(** The part of [checkExpireItems] below the [closed] test. *)
Definition checkExpireItems_open (now : Z) (p : Pool) (env : Env)
    : Pool * Env :=
  if TTL p =? 0 then (p, env)
  else
    let '(l, env') := expireLoop p now (-1) (list_ p) env in
    (set_list p l, env').

(** func (p *Pool) checkExpireItems.  [now] is the clock reading the
    expiration pass captures.  The third component of the result tells
    whether [timer.Exit()] was called. *)
Definition checkExpireItems (ex : ExitBehaviour) (now : Z) (p : Pool)
    (env : Env) : Pool * Env * bool :=
  if closed p then
    let '(l, env1) :=
      match ExpireFunc p with
      | Some f => drain f (list_ p) env
      | None => (list_ p, env)
      end in
    match ex with
    | ExitUnwinds => (set_list p l, env1, true)
    | ExitReturns =>
        let '(p2, env2) := checkExpireItems_open now (set_list p l) env1 in
        (p2, env2, true)
    end
  else
    let '(p2, env2) := checkExpireItems_open now p env in
    (p2, env2, false).

(** *** Calls from outside *)

(** One call on the pool: an operation of a caller, or one invocation of
    the sweep by the timer. *)
Inductive call : Type :=
| CallPut (now : Z) (v : any)
| CallGet (clk : nat -> Z)
| CallClear
| CallClose
| CallSweep (now : Z).

(** The effect of one call on the pool and on the environment. *)
Definition perform (ex : ExitBehaviour) (c : call) (s : Pool * Env)
    : Pool * Env :=
  match c with
  | CallPut now v => (snd (Put now v (fst s)), snd s)
  | CallGet clk =>
      (snd (fst (Get clk (fst s) (snd s))), snd (Get clk (fst s) (snd s)))
  | CallClear => Clear (fst s) (snd s)
  | CallClose => (Close (fst s), snd s)
  | CallSweep now => fst (checkExpireItems ex now (fst s) (snd s))
  end.

(** A sequence of calls, one after the other. *)
Definition run (ex : ExitBehaviour) (cs : list call) (s : Pool * Env)
    : Pool * Env :=
  fold_left (fun s c => perform ex c s) cs s.

(** The calls through which an item can leave the store of pool [p]: a
    [Get] or a sweep pass on the open pool, [Clear], and the sweep of the
    closed pool. *)
Definition may_remove (c : call) (p : Pool) : Prop :=
  match c with
  | CallPut _ _ => False
  | CallGet _ => closed p = false
  | CallClear => True
  | CallClose => False
  | CallSweep _ => closed p = true \/ TTL p <> 0
  end.

(** *** Vocabulary of the properties *)

(** [ExpireFunc] applied to the value of every item of [l], once each,
    front to back. *)
Definition teardown (f : ExpireFunc_t) (l : List) (env : Env) : Env :=
  fold_left (fun e r => f (value r) e) l env.

(** The same under the [nil] guard of the sweep: without an [ExpireFunc]
    nothing is called. *)
Definition teardown_opt (ef : option (ExpireFunc_t)) (l : List)
    (env : Env) : Env :=
  match ef with
  | Some f => teardown f l env
  | None => env
  end.

(** The validity check of [Get], taken at clock reading [now]. *)
Definition valid_at (now : Z) (f : poolItem) : bool :=
  (expire f =? 0) || (expire f >? now).

(** No item of [l] passes the validity check of a [Get] that has made
    [n] clock readings before it pops the first of them. *)
Fixpoint all_stale (clk : nat -> Z) (n : nat) (l : List) : bool :=
  match l with
  | [] => true
  | f :: l' => negb (valid_at (clk n) f) && all_stale clk (S n) l'
  end.

(** Every item of [l] is past due for a sweep that captured [now]. *)
Definition all_due (now : Z) (l : List) : Prop :=
  Forall (fun r => expire r <= now) l.

(** The clock reading of call [c], if it is a [Put], lies between the
    epoch and [T]. *)
Definition put_time_within (T : Z) (c : call) : Prop :=
  match c with
  | CallPut now _ => 0 <= now <= T
  | _ => True
  end.

End PoolModel.

(** An [ExpireFunc] that only records the values it is called with, in
    the order of the calls. *)
Definition recordExpire {V : Type} : @ExpireFunc_t V (list (@any V)) :=
  fun v log => log ++ [v].


Arguments poolItem : clear implicits.
Arguments List : clear implicits.
Arguments any : clear implicits.
Arguments Pool : clear implicits.
Arguments NewFunc_t : clear implicits.
Arguments ExpireFunc_t : clear implicits.

(** ** Sequences of calls on the pool: further vocabulary *)

Section PoolRuns.

Context {V Env : Type}.

Local Abbreviation poolItem := (poolItem V).
Local Abbreviation List := (List V).
Local Abbreviation any := (any V).
Local Abbreviation Pool := (Pool V Env).
Local Abbreviation call := (@call V).

(** The pool [p] with another [ExpireFunc]. *)
Definition with_ExpireFunc (p : Pool) (ef : option (ExpireFunc_t V Env))
    : Pool :=
  mkPool (list_ p) (closed p) (TTL p) (NewFunc p) ef.

(** [n] calls of [Get], one after the other; [clks i] are the clock
    readings of the [i]-th of them.  The results are collected in the
    order of the calls. *)
Fixpoint Get_times (n : nat) (clks : nat -> nat -> Z) (p : Pool) (env : Env)
    : list (any * option error) * Pool * Env :=
  match n with
  | O => ([], p, env)
  | S n' =>
      let '(r, p1, env1) := Get (clks O) p env in
      let '(rs, p2, env2) := Get_times n' (fun i => clks (S i)) p1 env1 in
      (r :: rs, p2, env2)
  end.

(** The store holds its items in the order of their deadlines. *)
Fixpoint ascending (l : List) : Prop :=
  match l with
  | [] => True
  | r :: l' => Forall (fun r' => expire r <= expire r') l' /\ ascending l'
  end.

(** The clock readings of the [Put]s among the calls [cs] do not go back,
    starting from reading [T], and no deadline computed from them with a
    TTL of [ttl] nanoseconds leaves the 64-bit range. *)
Fixpoint put_times_ascend (ttl T : Z) (cs : list call) : Prop :=
  match cs with
  | [] => True
  | CallPut now _ :: cs' =>
      T <= now /\ Int64.in_range (now + Z.quot ttl 1000000) /\
      put_times_ascend ttl now cs'
  | _ :: cs' => put_times_ascend ttl T cs'
  end.

(** The values of the [Put]s among the calls [cs] that the pool takes in:
    those made while the pool is not closed.  [c] is the closed flag
    before the first call. *)
Fixpoint accepted (c : bool) (cs : list call) : list any :=
  match cs with
  | [] => []
  | CallPut _ v :: cs' => if c then accepted c cs' else v :: accepted c cs'
  | CallClose :: cs' => accepted true cs'
  | _ :: cs' => accepted c cs'
  end.

Definition is_Put (c : call) : Prop :=
  match c with
  | CallPut _ _ => True
  | _ => False
  end.

Definition is_not_Get (c : call) : Prop :=
  match c with
  | CallGet _ => False
  | _ => True
  end.

End PoolRuns.

(** ** Circuit breaker groups ([net/breaker/breaker.go]) *)

(** type Breaker interface.  A breaker is a stateful object; its methods
    change it and may read and write the rest of the world [W] (a clock,
    a random source). *)
Class Breaker (B W : Type) : Type := {
  Allow : B -> W -> option error * B * W;
  Accept : B -> W -> B * W;
  Reject : B -> W -> B * W
}.

Section BreakerGroup.

Context {B W : Type} `{Breaker B W}.

(** [newGoogleSreBreaker(nil)]: the constructor is declared in a file
    that is not among the sources; it is a parameter here. *)
Variable newGoogleSreBreaker : W -> B * W.

(** type BreakerGroup struct: the map from names to breakers.  The
    breakers are held by reference, so a method called on a breaker taken
    from the group changes the breaker the group holds. *)
Definition BreakerGroup : Type := string -> option B.

(** func NewBreakerGroup *)
Definition NewBreakerGroup : BreakerGroup := fun _ => None.

(** [bg.breakers[name] = breaker] *)
Definition breakers_set (bg : BreakerGroup) (name : string) (breaker : B)
    : BreakerGroup :=
  fun k => if String.eqb k name then Some breaker else bg k.

(** func (bg *BreakerGroup) Get: a look-up under the read lock and, when
    that finds nothing, a second look-up under the write lock before the
    breaker is made. *)
Definition BreakerGroup_Get (name : string) (bg : BreakerGroup) (w : W)
    : B * BreakerGroup * W :=
  match bg name with
  | Some breaker => (breaker, bg, w)
  | None =>
      match bg name with
      | Some breaker => (breaker, bg, w)
      | None =>
          let '(breaker, w') := newGoogleSreBreaker w in
          (breaker, breakers_set bg name breaker, w')
      end
  end.

(** func (bg *BreakerGroup) Do.  [run] and [accept] are callbacks of the
    caller; they too may read and write the world. *)
Definition BreakerGroup_Do (name : string) (run : W -> option error * W)
    (accept : option error -> W -> bool * W) (bg : BreakerGroup) (w : W)
    : option error * BreakerGroup * W :=
  let '(breaker, bg1, w1) := BreakerGroup_Get name bg w in
  let '(berr, b1, w2) := Allow breaker w1 in
  let '(err, w3) :=
    match berr with
    | Some e => (Some e, w2)
    | None => run w2
    end in
  let '(ok, w4) := accept err w3 in
  let '(b2, w5) := if ok then Accept b1 w4 else Reject b1 w4 in
  (err, breakers_set bg1 name b2, w5).

End BreakerGroup.

(** ** Query results as records (package [mysql], [ParseRows]) *)

Section ParseRowsModel.

(** [V] are the non-nil values a driver delivers. *)
Context {V : Type}.

(** [map[string]interface{}] as [ParseRows] fills it: only non-nil values
    are ever stored, so a key is absent or bound to a value. *)
Definition Fields : Type := string -> option V.

Definition Fields_empty : Fields := fun _ => None.

(** [record[k] = v] *)
Definition Fields_set (record : Fields) (k : string) (v : V) : Fields :=
  fun k' => if String.eqb k' k then Some v else record k'.

(** The inner loop [for i, col := range values]: [values] has one cell for
    every column, and a cell that is not nil is stored under the name of
    its column. *)
Fixpoint store_values (columns : list string) (values : list (option V))
    (record : Fields) : Fields :=
  match columns, values with
  | c :: columns', col :: values' =>
      store_values columns' values'
        (match col with
         | Some v => Fields_set record c v
         | None => record
         end)
  | _, _ => record
  end.

(** The slice [ParseRows] returns.  The one map made before the loop is
    appended once per row, so the slice holds [entries] references to the
    same map; [shared] is that map as the loop leaves it. *)
Record Records : Type := mkRecords {
  shared : Fields;
  entries : nat
}.

(** [records[i][k]]: every index reads the one shared map. *)
Definition Records_at (rs : Records) (i : nat) (k : string) : option V :=
  if (i <? entries rs)%nat then shared rs k else None.

(** The loop [for rows.Next()].  The rows are given by what [rows.Scan]
    leaves in [values] for each of them, or [None] where it reports an
    error; [checkErr] then ends the process with [log.Fatal], and nothing
    is returned. *)
Fixpoint ParseRows_loop (columns : list string)
    (rows : list (option (list (option V)))) (record : Fields) (n : nat)
    : option Records :=
  match rows with
  | [] => Some (mkRecords record n)
  | None :: _ => None
  | Some values :: rows' =>
      ParseRows_loop columns rows' (store_values columns values record) (S n)
  end.

(** func ParseRows *)
Definition ParseRows (columns : list string)
    (rows : list (option (list (option V)))) : option Records :=
  ParseRows_loop columns rows Fields_empty 0.

End ParseRowsModel.

(** ** Sizes written as text ([os/file/file_size.go], [StrToSize]) *)

Section StrToSizeModel.

(** [float64] and the three operations [StrToSize] applies to it are not
    interpreted: [ParseFloat s] is the number [strconv.ParseFloat(s, 64)]
    returns (its error is dropped by the source), [fmul] is the product
    of two [float64], [f1024] is the constant 1024 as a [float64] and
    [to_int64] is the conversion [int64(x)]. *)
Context {float64 : Type}.
Variable ParseFloat : string -> float64.
Variable fmul : float64 -> float64 -> float64.
Variable f1024 : float64.
Variable to_int64 : float64 -> Z.

(** What [strings.ToLower] makes of a string that has a byte outside
    ASCII (it maps the runes of the string); not interpreted. *)
Variable unicode_ToLower : string -> string.

Local Open Scope string_scope.
Local Open Scope char_scope.

(** [c == '.' || (c >= '0' && c <= '9')] *)
Definition is_number_byte (c : ascii) : bool :=
  Ascii.eqb c "." ||
  ((nat_of_ascii "0" <=? nat_of_ascii c)%nat &&
   (nat_of_ascii c <=? nat_of_ascii "9")%nat).

(** The index [i] at which the first loop of [StrToSize] stops. *)
Fixpoint scan_index (sizeStr : string) : nat :=
  match sizeStr with
  | EmptyString => O
  | String c s' => if is_number_byte c then S (scan_index s') else O
  end.

Fixpoint all_bytes (f : ascii -> bool) (s : string) : bool :=
  match s with
  | EmptyString => true
  | String c s' => f c && all_bytes f s'
  end.

Fixpoint map_bytes (f : ascii -> ascii) (s : string) : string :=
  match s with
  | EmptyString => EmptyString
  | String c s' => String (f c) (map_bytes f s')
  end.

Definition is_ASCII (c : ascii) : bool := (nat_of_ascii c <? 128)%nat.

(** ['A' <= c && c <= 'Z'], then [c += 'a' - 'A']. *)
Definition lower_byte (c : ascii) : ascii :=
  if (nat_of_ascii "A" <=? nat_of_ascii c)%nat &&
     (nat_of_ascii c <=? nat_of_ascii "Z")%nat
  then ascii_of_nat (nat_of_ascii c + 32)
  else c.

(** [strings.ToLower]: on a string of ASCII bytes every upper-case letter
    is replaced by its lower-case letter and nothing else changes. *)
Definition ToLower (s : string) : string :=
  if all_bytes is_ASCII s then map_bytes lower_byte s
  else unicode_ToLower s.

Definition one_of (names : list string) (u : string) : bool :=
  existsb (String.eqb u) names.

Local Notation "x *. y" := (fmul x y) (at level 40, left associativity).

(** The part of [StrToSize] below the first loop, on the two slices. *)
Definition convert_size (number : float64) (unit : string) : Z :=
  if String.eqb unit EmptyString then to_int64 number
  else
    let u := ToLower unit in
    if one_of ["b"; "bytes"]%string u then to_int64 number
    else if one_of ["k"; "kb"; "ki"; "kib"; "kilobyte"]%string u then
      to_int64 (number *. f1024)
    else if one_of ["m"; "mb"; "mi"; "mib"; "mebibyte"]%string u then
      to_int64 (number *. f1024 *. f1024)
    else if one_of ["g"; "gb"; "gi"; "gib"; "gigabyte"]%string u then
      to_int64 (number *. f1024 *. f1024 *. f1024)
    else if one_of ["t"; "tb"; "ti"; "tib"; "terabyte"]%string u then
      to_int64 (number *. f1024 *. f1024 *. f1024 *. f1024)
    else if one_of ["p"; "pb"; "pi"; "pib"; "petabyte"]%string u then
      to_int64 (number *. f1024 *. f1024 *. f1024 *. f1024 *. f1024)
    else if one_of ["e"; "eb"; "ei"; "eib"; "exabyte"]%string u then
      to_int64
        (number *. f1024 *. f1024 *. f1024 *. f1024 *. f1024 *. f1024)
    else if one_of ["z"; "zb"; "zi"; "zib"; "zettabyte"]%string u then
      to_int64
        (number *. f1024 *. f1024 *. f1024 *. f1024 *. f1024 *. f1024
         *. f1024)
    else if one_of ["y"; "yb"; "yi"; "yib"; "yottabyte"]%string u then
      to_int64
        (number *. f1024 *. f1024 *. f1024 *. f1024 *. f1024 *. f1024
         *. f1024 *. f1024)
    else if one_of ["bb"; "brontobyte"]%string u then
      to_int64
        (number *. f1024 *. f1024 *. f1024 *. f1024 *. f1024 *. f1024
         *. f1024 *. f1024 *. f1024)
    else -1.

(** func StrToSize: [sizeStr[:i]] goes to [ParseFloat], [sizeStr[i:]] is
    the unit. *)
Definition StrToSize (sizeStr : string) : Z :=
  let i := scan_index sizeStr in
  convert_size
    (ParseFloat (substring 0 i sizeStr))
    (substring i (String.length sizeStr - i) sizeStr).

(** The unit begins where the digits and dots end. *)
Definition starts_unit (unit : string) : Prop :=
  match unit with
  | EmptyString => True
  | String c _ => is_number_byte c = false
  end.

(** The lower-case initials of the unit names [StrToSize] knows. *)
Definition is_unit_initial (c : ascii) : bool :=
  existsb (Ascii.eqb (lower_byte c))
    ["b"; "k"; "m"; "g"; "t"; "p"; "e"; "z"; "y"]%char.

End StrToSizeModel.

(** A breaker for the examples: it counts the rejections since the last
    acceptance and refuses calls once there are three. *)
Definition countingBreaker : Breaker nat unit := {|
  Allow := fun b w => (if (b <? 3)%nat then None else Some "open"%string, b, w);
  Accept := fun _ w => (O, w);
  Reject := fun b w => (S b, w)
|}.

(** ** 64-bit arithmetic without overflow *)

Module Int64Facts.

Lemma wrap_in_range (z : Z) : Int64.in_range z -> Int64.wrap z = z.
Proof.
  unfold Int64.in_range, Int64.wrap, Int64.min_int, Int64.max_int. intros H.
  rewrite Z.mod_small; lia.
Qed.

Lemma wrap_range (z : Z) : Int64.in_range (Int64.wrap z).
Proof.
  unfold Int64.in_range, Int64.wrap, Int64.min_int, Int64.max_int.
  pose proof (Z.mod_pos_bound (z + 2 ^ 63) (2 ^ 64)). lia.
Qed.

End Int64Facts.

(** ** The store operations and the loops *)

Section PoolFacts.

Context {V Env : Type}.

Local Abbreviation poolItem := (poolItem V).
Local Abbreviation List := (List V).
Local Abbreviation any := (any V).
Local Abbreviation Pool := (Pool V Env).

Lemma drain_eq (f : ExpireFunc_t V Env) (l : List) (env : Env) :
  drain f l env =
  match PopFront l with
  | (Some r, l') => drain f l' (f (value r) env)
  | (None, l') => (l', env)
  end.
Proof. destruct l; reflexivity. Qed.

Lemma Get_loop_eq (clk : nat -> Z) (n : nat) (l : List) :
  Get_loop clk n l =
  match PopFront l with
  | (Some f, l') =>
      if (expire f =? 0) || (expire f >? clk n) then (Some f, l')
      else Get_loop clk (S n) l'
  | (None, l') => (None, l')
  end.
Proof. destruct l; reflexivity. Qed.

Lemma expireLoop_eq (p : Pool) (now latest : Z) (l : List) (env : Env) :
  expireLoop p now latest l env =
  if latest >? now then (l, env)
  else
    match PopFront l with
    | (Some item, l') =>
        if expire item >? now then (PushFront item l', env)
        else expireLoop p now (expire item) l'
               (callExpire p (value item) env)
    | (None, l') => (l', env)
    end.
Proof. destruct l; reflexivity. Qed.

Lemma drain_spec (f : ExpireFunc_t V Env) (l : List) (env : Env) :
  drain f l env = ([], teardown f l env).
Proof.
  revert env. induction l as [|r l IH]; intros env; simpl.
  - reflexivity.
  - apply IH.
Qed.

Lemma teardown_app (f : ExpireFunc_t V Env) (l1 l2 : List) (env : Env) :
  teardown f (l1 ++ l2) env = teardown f l2 (teardown f l1 env).
Proof. unfold teardown. apply fold_left_app. Qed.

Lemma set_list_same (p : Pool) : set_list p (list_ p) = p.
Proof. destruct p; reflexivity. Qed.

(** The guard on [latestExpire] at the head of the loop is idle as long
    as the carried value is not beyond the captured clock. *)
Lemma expireLoop_latest (p : Pool) (now l1 l2 : Z) (l : List) (env : Env) :
  l1 <= now -> l2 <= now ->
  expireLoop p now l1 l env = expireLoop p now l2 l env.
Proof.
  intros H1 H2. rewrite (expireLoop_eq p now l1), (expireLoop_eq p now l2).
  destruct (Z.gtb_spec l1 now); [lia|].
  destruct (Z.gtb_spec l2 now); [lia|].
  reflexivity.
Qed.

(** Past-due items at the front are popped and torn down one by one. *)
Lemma expireLoop_due (p : Pool) (now latest : Z) (due tail : List)
    (env : Env) :
  latest <= now -> all_due now due ->
  expireLoop p now latest (due ++ tail) env =
  expireLoop p now latest tail (teardown_opt (ExpireFunc p) due env).
Proof.
  intros Hl Hd. revert env. induction Hd as [|r due Hr Hd IH]; intros env.
  - simpl. destruct (ExpireFunc p); reflexivity.
  - cbn [app expireLoop].
    destruct (Z.gtb_spec latest now); [lia|].
    destruct (Z.gtb_spec (expire r) now); [lia|].
    rewrite (expireLoop_latest p now (expire r) latest) by lia.
    rewrite IH. f_equal.
    unfold callExpire, teardown_opt, teardown.
    destruct (ExpireFunc p); reflexivity.
Qed.

Lemma expireLoop_stop (p : Pool) (now latest : Z) (item : poolItem)
    (rest : List) (env : Env) :
  latest <= now -> now < expire item ->
  expireLoop p now latest (item :: rest) env = (item :: rest, env).
Proof.
  intros Hl Hi. cbn [expireLoop].
  destruct (Z.gtb_spec latest now); [lia|].
  destruct (Z.gtb_spec (expire item) now); [|lia].
  reflexivity.
Qed.

Lemma expireLoop_nil (p : Pool) (now latest : Z) (env : Env) :
  expireLoop p now latest [] env = ([], env).
Proof. cbn [expireLoop]. destruct (latest >? now); reflexivity. Qed.

(** Stale items at the front are popped by [Get] and dropped. *)
Lemma Get_loop_stale (clk : nat -> Z) (n : nat) (stale tail : List) :
  all_stale clk n stale = true ->
  Get_loop clk n (stale ++ tail) = Get_loop clk (n + length stale)%nat tail.
Proof.
  revert n. induction stale as [|f stale IH]; intros n H; simpl in *.
  - rewrite Nat.add_0_r. reflexivity.
  - apply andb_prop in H. destruct H as [Hf Hs].
    unfold valid_at in Hf. apply negb_true_iff in Hf. rewrite Hf.
    rewrite IH by exact Hs. f_equal. lia.
Qed.

(** What the loop of [Get] has done when it stops: the items it popped
    before the one it returns were all stale at their reading, and the
    one it returns passed the check. *)
Lemma Get_loop_spec (clk : nat -> Z) (n : nat) (l : List) :
  match Get_loop clk n l with
  | (Some f, l') =>
      exists dropped,
        l = dropped ++ f :: l' /\
        all_stale clk n dropped = true /\
        valid_at (clk (n + length dropped)%nat) f = true
  | (None, l') => l' = [] /\ all_stale clk n l = true
  end.
Proof.
  revert n. induction l as [|f l IH]; intros n; simpl.
  - split; reflexivity.
  - destruct ((expire f =? 0) || (expire f >? clk n)) eqn:E.
    + exists []. simpl. rewrite Nat.add_0_r. repeat split. exact E.
    + specialize (IH (S n)). destruct (Get_loop clk (S n) l) as [[g|] l'].
      * destruct IH as (dropped & Hl & Hs & Hv).
        exists (f :: dropped). simpl. unfold valid_at at 1. rewrite E.
        repeat split; [now rewrite Hl | exact Hs |].
        replace (n + S (length dropped))%nat with (S n + length dropped)%nat
          by lia.
        exact Hv.
      * destruct IH as [Hl Hs]. unfold valid_at. rewrite E. simpl. auto.
Qed.

End PoolFacts.


(** ** Put, Clear and the fall-back of Get *)

Section Operations.

Context {V Env : Type}.

Local Abbreviation poolItem := (poolItem V).
Local Abbreviation List := (List V).
Local Abbreviation any := (any V).
Local Abbreviation Pool := (Pool V Env).

(** C7.  On a pool whose closed flag is set, [Put] fails with the
    pool-closed error and leaves the store (the whole pool, in fact) as it
    was: nothing is appended on the error path.  On a pool whose flag is
    not set, [Put] succeeds and the store afterwards is the old store with
    exactly one item at its back, wrapping the value that was put. *)
Theorem Put_closed_fails_open_appends (now : Z) (v : any) (p : Pool) :
  (closed p = true -> Put now v p = (Some PoolClosed, p)) /\
  (closed p = false ->
   exists item : poolItem,
     value item = v /\
     Put now v p = (None, set_list p (PushBack item (list_ p))) /\
     Size (snd (Put now v p)) = Size p + 1).
Proof.
  unfold Put. split; intros Hc; rewrite Hc.
  - reflexivity.
  - eexists. split; [|split]; [|reflexivity|].
    + destruct (TTL p =? 0); reflexivity.
    + unfold Size, Len, PushBack. cbn [snd set_list list_].
      rewrite length_app. cbn [length]. lia.
Qed.

(** C8.  With an [ExpireFunc], [Clear] pops from the front until the store
    is empty and calls [ExpireFunc] on the value of every popped item,
    once each; without one, [Clear] empties the store by [RemoveAll] and
    calls nothing.  With the recording callback the record grows by
    exactly the values that were in the store, front to back; so after
    Put(a); Put(b); Clear() it has grown by a and b, once each. *)
Theorem Clear_tears_down_each_item_once (p : Pool) (env : Env) :
  (forall f, ExpireFunc p = Some f ->
     Clear p env = (set_list p [], teardown f (list_ p) env)) /\
  (ExpireFunc p = None ->
     Clear p env = (set_list p (RemoveAll (list_ p)), env) /\
     RemoveAll (list_ p) = []) /\
  (forall (l : List) (c : bool) (ttl : Z) nf (log : list any),
     Clear (mkPool l c ttl nf (Some recordExpire)) log =
     (mkPool [] c ttl nf (Some recordExpire), log ++ map value l)) /\
  (forall (ttl now1 now2 : Z) nf (a b : any) (log : list any),
     Clear (snd (Put now2 b (snd (Put now1 a
              (New ttl nf [Some recordExpire]))))) log =
     (New ttl nf [Some recordExpire], log ++ [a; b])).
Proof.
  assert (Hrec : forall (l : List) (log : list any),
             teardown recordExpire l log = log ++ map value l).
  { induction l as [|r l IH]; intros log.
    - cbn. now rewrite app_nil_r.
    - cbn [map]. change (teardown recordExpire (r :: l) log)
        with (teardown recordExpire l (recordExpire (value r) log)).
      rewrite IH. unfold recordExpire. now rewrite <- app_assoc. }
  split; [|split; [|split]].
  - intros f Hf. unfold Clear. rewrite Hf, drain_spec. reflexivity.
  - intros Hf. unfold Clear. rewrite Hf. split; reflexivity.
  - intros l c ttl nf log. unfold Clear. cbn [ExpireFunc list_].
    rewrite drain_spec, Hrec. reflexivity.
  - intros ttl now1 now2 nf a b log. unfold New, Put. cbn [closed TTL].
    unfold Clear, PushBack. cbn [set_list ExpireFunc list_ fst snd closed TTL].
    rewrite drain_spec, Hrec.
    destruct (ttl =? 0); reflexivity.
Qed.

(** C5.  When [Get] leaves its loop without a stored item (the pool is
    closed, or the loop has popped the store empty without finding a valid
    item) and a [NewFunc] is there, [Get] calls it once and returns its
    result, value and error, as it is; the store after the call is the
    store the loop left, so the new value is not in it.  In particular
    [Get] right after [New] returns the result of [NewFunc] and leaves the
    store empty. *)
Theorem Get_falls_back_to_NewFunc (clk : nat -> Z) (p : Pool) (env : Env)
    (newf : NewFunc_t V Env) :
  NewFunc p = Some newf ->
  (closed p = true ->
     Get clk p env = (fst (newf env), p, snd (newf env))) /\
  (closed p = false -> fst (Get_loop clk 0 (list_ p)) = None ->
     snd (Get_loop clk 0 (list_ p)) = [] /\
     Get clk p env = (fst (newf env), set_list p [], snd (newf env))) /\
  (forall ttl ef,
     Get clk (New ttl (Some newf) ef) env =
     (fst (newf env), New ttl (Some newf) ef, snd (newf env))).
Proof.
  intros Hn. split; [|split].
  - intros Hc. unfold Get. rewrite Hc, Hn, set_list_same.
    destruct (newf env); reflexivity.
  - intros Hc Hl. unfold Get. rewrite Hc.
    pose proof (Get_loop_spec clk 0 (list_ p)) as Hs.
    destruct (Get_loop clk 0 (list_ p)) as [[f|] l']; [discriminate|].
    destruct Hs as [-> _]. rewrite Hn. split; [reflexivity|].
    destruct (newf env); reflexivity.
  - intros ttl ef. unfold Get, New. cbn.
    destruct (newf env); reflexivity.
Qed.

(** C6.  On a pool without a [NewFunc], a [Get] that finds no stored item
    passing its validity check returns the nil value together with the
    pool-empty error, whatever the store holds when the pool is closed;
    the call is a total function of the pool, the environment and the
    clock readings, so it waits for nothing.  In particular [Get] right
    after [New] with a nil [NewFunc] returns the pool-empty error. *)
Theorem Get_without_NewFunc_is_empty (clk : nat -> Z) (p : Pool) (env : Env) :
  NewFunc p = None ->
  (all_stale clk 0 (list_ p) = true ->
     fst (fst (Get clk p env)) = (nil_any, Some PoolEmpty) /\
     snd (Get clk p env) = env) /\
  (closed p = true ->
     Get clk p env = ((nil_any, Some PoolEmpty), p, env)) /\
  (closed p = false -> all_stale clk 0 (list_ p) = true ->
     Get clk p env = ((nil_any, Some PoolEmpty), set_list p [], env)) /\
  (forall ttl (ef : list (option (ExpireFunc_t V Env))),
     Get clk (New ttl None ef) env =
     ((nil_any, Some PoolEmpty), New ttl None ef, env)).
Proof.
  intros Hn.
  assert (Hopen : closed p = false -> all_stale clk 0 (list_ p) = true ->
            Get clk p env = ((nil_any, Some PoolEmpty), set_list p [], env)).
  { intros Hc Hs. unfold Get. rewrite Hc.
    pose proof (Get_loop_stale clk 0 (list_ p) [] Hs) as Hl.
    rewrite app_nil_r in Hl. rewrite Hl. cbn [Get_loop]. now rewrite Hn. }
  assert (Hclosed : closed p = true ->
            Get clk p env = ((nil_any, Some PoolEmpty), p, env)).
  { intros Hc. unfold Get. now rewrite Hc, Hn, set_list_same. }
  split; [|split; [|split]].
  - intros Hs. destruct (closed p) eqn:Hc.
    + rewrite Hclosed by reflexivity. split; reflexivity.
    + rewrite Hopen by auto. split; reflexivity.
  - exact Hclosed.
  - exact Hopen.
  - intros ttl ef. reflexivity.
Qed.

End Operations.


(** ** The sweep *)

Section Sweep.

Context {V Env : Type}.

Local Abbreviation poolItem := (poolItem V).
Local Abbreviation List := (List V).
Local Abbreviation any := (any V).
Local Abbreviation Pool := (Pool V Env).

Lemma teardown_opt_cons (p : Pool) (r : poolItem) (l : List) (env : Env) :
  teardown_opt (ExpireFunc p) (r :: l) env =
  teardown_opt (ExpireFunc p) l (callExpire p (value r) env).
Proof. unfold teardown_opt, callExpire. destruct (ExpireFunc p); reflexivity. Qed.

(** Whatever the store holds, the expiration loop removes a prefix of
    past-due items, tears down exactly those, and touches nothing else. *)
Lemma expireLoop_removes_due_prefix (p : Pool) (now latest : Z) (l : List)
    (env : Env) :
  exists gone,
    l = gone ++ fst (expireLoop p now latest l env) /\
    all_due now gone /\
    snd (expireLoop p now latest l env) =
    teardown_opt (ExpireFunc p) gone env.
Proof.
  revert latest env. induction l as [|item l IH]; intros latest env.
  - exists []. rewrite expireLoop_nil. repeat split.
    + constructor.
    + cbn. destruct (ExpireFunc p); reflexivity.
  - cbn [expireLoop]. destruct (latest >? now).
    { exists []. repeat split; [constructor|].
      cbn. destruct (ExpireFunc p); reflexivity. }
    destruct (Z.gtb_spec (expire item) now) as [Hi|Hi].
    { exists []. repeat split; [constructor|].
      cbn. destruct (ExpireFunc p); reflexivity. }
    destruct (IH (expire item) (callExpire p (value item) env))
      as (gone & Hl & Hd & He).
    exists (item :: gone). repeat split.
    + cbn [app]. now rewrite <- Hl.
    + constructor; assumption.
    + rewrite He, teardown_opt_cons. reflexivity.
Qed.

Lemma checkExpireItems_open_pool (ex : ExitBehaviour) (now : Z) (p : Pool)
    (env : Env) :
  closed p = false ->
  checkExpireItems ex now p env = (checkExpireItems_open now p env, false).
Proof.
  intros Hc. unfold checkExpireItems. rewrite Hc.
  destruct (checkExpireItems_open now p env); reflexivity.
Qed.

(** On an empty store the code below the [closed] test changes nothing. *)
Lemma checkExpireItems_open_empty (now : Z) (p : Pool) (env : Env) :
  list_ p = [] -> checkExpireItems_open now p env = (p, env).
Proof.
  intros Hl. unfold checkExpireItems_open. destruct (TTL p =? 0); [reflexivity|].
  rewrite Hl, expireLoop_nil, <- Hl, set_list_same. reflexivity.
Qed.

(** Every store is a run of past-due items, followed by nothing or by an
    item that is not yet due and whatever is behind it. *)
Lemma store_splits_at_first_live_item (now : Z) (l : List) :
  exists due,
    all_due now due /\
    (l = due \/ exists item rest, l = due ++ item :: rest /\ now < expire item).
Proof.
  induction l as [|r l IH].
  - exists []. split; [constructor|now left].
  - destruct (Z.le_gt_cases (expire r) now) as [Hr|Hr].
    + destruct IH as (due & Hd & [Hl|(item & rest & Hl & Hi)]).
      * exists (r :: due). split; [now constructor|left; now rewrite Hl].
      * exists (r :: due). split; [now constructor|].
        right. exists item, rest. split; [now rewrite Hl|exact Hi].
    + exists []. split; [constructor|].
      right. exists r, l. split; [reflexivity|lia].
Qed.

(** C9.  A sweep of an open pool whose TTL is not 0 compares every item
    with the one clock reading [now] it captured.  If the store is a run
    of past-due items ([expire <= now]) followed by an item that is not
    yet due ([expire > now]), the past-due items are popped and their
    values go to [ExpireFunc] (when there is one), once each and front to
    back; the item that is not due is pushed back, and the store is left
    as it was just before that item was popped: that item at the front,
    everything behind it untouched.  If every item is past due the store
    ends empty.  Every store is of one of these two shapes
    ([store_splits_at_first_live_item]).  The captured reading is taken to be at least [-1], as
    every reading of a clock that counts from 1970 is. *)
Theorem sweep_pass_stops_at_first_live_item (ex : ExitBehaviour) (now : Z)
    (p : Pool) (env : Env) (due : List) :
  closed p = false -> TTL p <> 0 -> -1 <= now -> all_due now due ->
  (forall item rest,
     list_ p = due ++ item :: rest -> now < expire item ->
     checkExpireItems ex now p env =
     (set_list p (item :: rest), teardown_opt (ExpireFunc p) due env, false))
  /\
  (list_ p = due ->
     checkExpireItems ex now p env =
     (set_list p [], teardown_opt (ExpireFunc p) due env, false)).
Proof.
  intros Hc Ht Hn Hd.
  rewrite checkExpireItems_open_pool by exact Hc.
  unfold checkExpireItems_open.
  destruct (Z.eqb_spec (TTL p) 0) as [E|_]; [contradiction|].
  split.
  - intros item rest Hl Hi.
    rewrite Hl, expireLoop_due, expireLoop_stop by (assumption || lia).
    reflexivity.
  - intros Hl. rewrite Hl at 1. rewrite <- (app_nil_r due) at 1.
    rewrite expireLoop_due, expireLoop_nil by (assumption || lia).
    reflexivity.
Qed.

(** C3 (as amended).  A sweep that finds the closed flag set and an
    [ExpireFunc] present pops the store empty and calls [ExpireFunc] on
    the value of every item, once each, front to back; with no
    [ExpireFunc] it pops nothing.  It then calls [timer.Exit()].  If that
    call ends the invocation, nothing else happens: neither the test of
    the TTL nor the expiration pass runs, so without an [ExpireFunc] the
    pool comes out as it went in, past-due items included.  On an open
    pool the sweep is exactly the code below the [closed] test, and
    [timer.Exit()] is not called. *)
Theorem closed_sweep_drains_then_exits (ex : ExitBehaviour) (now : Z)
    (p : Pool) (env : Env) :
  (closed p = true ->
     forall f, ExpireFunc p = Some f ->
       checkExpireItems ex now p env =
       (set_list p [], teardown f (list_ p) env, true)) /\
  (closed p = true -> ExpireFunc p = None ->
     checkExpireItems ExitUnwinds now p env = (p, env, true)) /\
  (closed p = true -> snd (checkExpireItems ex now p env) = true) /\
  (closed p = false ->
     checkExpireItems ex now p env =
     (checkExpireItems_open now p env, false)).
Proof.
  split; [|split; [|split]].
  - intros Hc f Hf. unfold checkExpireItems. rewrite Hc, Hf, drain_spec.
    destruct ex; [reflexivity|].
    rewrite checkExpireItems_open_empty by reflexivity. reflexivity.
  - intros Hc Hf. unfold checkExpireItems.
    rewrite Hc, Hf, set_list_same. reflexivity.
  - intros Hc. unfold checkExpireItems. rewrite Hc.
    destruct (ExpireFunc p) as [f|].
    + destruct (drain f (list_ p) env) as [l env1].
      destruct ex; [reflexivity|].
      destruct (checkExpireItems_open now (set_list p l) env1); reflexivity.
    + destruct ex; [reflexivity|].
      destruct (checkExpireItems_open now (set_list p (list_ p)) env);
        reflexivity.
  - apply checkExpireItems_open_pool.
Qed.

(** Where the behaviour of [timer.Exit()] shows: if the call came back,
    the sweep of a closed pool without [ExpireFunc] would go on with the
    code below the [closed] test. *)
Lemma closed_sweep_if_Exit_returns (now : Z) (p : Pool) (env : Env) :
  closed p = true -> ExpireFunc p = None ->
  checkExpireItems ExitReturns now p env =
  (checkExpireItems_open now p env, true).
Proof.
  intros Hc Hf. unfold checkExpireItems. rewrite Hc, Hf, set_list_same.
  destruct (checkExpireItems_open now p env); reflexivity.
Qed.

End Sweep.


(** ** Items without expiry (TTL = 0) *)

Section NeverExpires.

Context {V Env : Type}.

Local Abbreviation poolItem := (poolItem V).
Local Abbreviation List := (List V).
Local Abbreviation any := (any V).
Local Abbreviation Pool := (Pool V Env).

(** What the loop of [Get] leaves is a suffix of the store. *)
Lemma Get_loop_suffix (clk : nat -> Z) (n : nat) (l : List) :
  exists gone, l = gone ++ snd (Get_loop clk n l).
Proof.
  pose proof (Get_loop_spec clk n l) as H.
  destruct (Get_loop clk n l) as [[f|] l'].
  - destruct H as (dropped & Hl & _). exists (dropped ++ [f]).
    cbn [snd]. now rewrite <- app_assoc.
  - destruct H as [-> _]. exists l. cbn [snd]. now rewrite app_nil_r.
Qed.

Lemma Get_config (clk : nat -> Z) (p : Pool) (env : Env) :
  exists l, snd (fst (Get clk p env)) = set_list p l /\
            (closed p = true -> l = list_ p) /\
            (closed p = false -> l = snd (Get_loop clk 0 (list_ p))).
Proof.
  unfold Get. destruct (closed p).
  - exists (list_ p). destruct (NewFunc p) as [newf|].
    + destruct (newf env). cbn. repeat split; auto; discriminate.
    + cbn. repeat split; auto; discriminate.
  - destruct (Get_loop clk 0 (list_ p)) as [[f|] l].
    + exists l. cbn. repeat split; auto; discriminate.
    + exists l. destruct (NewFunc p) as [newf|].
      * destruct (newf env). cbn. repeat split; auto; discriminate.
      * cbn. repeat split; auto; discriminate.
Qed.

(** Every call keeps the configuration of the pool, and every call other
    than those listed by [may_remove] keeps every stored item in place. *)
Lemma perform_keeps_store (ex : ExitBehaviour) (c : call) (p : Pool)
    (env : Env) :
  may_remove c p \/
  exists added, list_ (fst (perform ex c (p, env))) = list_ p ++ added.
Proof.
  destruct c as [now v|clk| | |now]; cbn [perform fst snd may_remove].
  - right. unfold Put. destruct (closed p).
    + exists []. cbn. now rewrite app_nil_r.
    + eexists. cbn. reflexivity.
  - destruct (closed p) eqn:Hc; [right|left; reflexivity].
    destruct (Get_config clk p env) as (l & Hp & Hl & _).
    rewrite Hp, Hl by exact Hc. exists []. cbn. now rewrite app_nil_r.
  - left. exact I.
  - right. exists []. cbn. now rewrite app_nil_r.
  - destruct (closed p) eqn:Hc; [left; now left|].
    destruct (Z.eqb_spec (TTL p) 0) as [Ht|Ht]; [right|left; now right].
    rewrite checkExpireItems_open_pool by exact Hc. cbn [fst].
    unfold checkExpireItems_open. rewrite Ht. cbn.
    exists []. now rewrite app_nil_r.
Qed.

(** The sentinel 0 on every stored item is an invariant of a pool whose
    TTL is 0, whatever is called on it. *)
Lemma perform_keeps_sentinel (ex : ExitBehaviour) (c : call) (p : Pool)
    (env : Env) :
  TTL p = 0 -> Forall (fun r => expire r = 0) (list_ p) ->
  TTL (fst (perform ex c (p, env))) = 0 /\
  Forall (fun r => expire r = 0) (list_ (fst (perform ex c (p, env)))).
Proof.
  intros Ht Hs.
  destruct c as [now v|clk| | |now]; cbn [perform fst snd].
  - unfold Put. destruct (closed p); cbn; [auto|]. split; [exact Ht|].
    rewrite Ht. cbn. unfold PushBack. apply Forall_app. split; [exact Hs|].
    constructor; [reflexivity|constructor].
  - destruct (Get_config clk p env) as (l & Hp & Hc & Ho). rewrite Hp. cbn.
    split; [exact Ht|]. destruct (closed p).
    + now rewrite Hc.
    + rewrite Ho by reflexivity.
      destruct (Get_loop_suffix clk 0 (list_ p)) as (gone & Hg).
      rewrite Hg in Hs. apply Forall_app in Hs. tauto.
  - unfold Clear. destruct (ExpireFunc p) as [f|].
    + rewrite drain_spec. cbn. auto.
    + cbn. auto.
  - cbn. auto.
  - unfold checkExpireItems, checkExpireItems_open. cbn [TTL set_list].
    rewrite Ht. cbn [Z.eqb]. destruct (closed p).
    + destruct (ExpireFunc p) as [f|].
      * rewrite drain_spec. destruct ex; cbn; auto.
      * destruct ex; cbn; auto.
    + cbn. auto.
Qed.

(** C4 (as amended).  On a pool whose TTL is 0: every successful [Put]
    stamps the item with the sentinel 0, whatever the clock shows; [Get]
    on the open pool returns the item at the front of the store when that
    item carries the sentinel, whatever the clock shows, and pops only
    that item; the sweep of the open pool changes nothing; a call leaves
    every stored item in place unless it is a [Get] on the open pool, a
    [Clear], or a sweep of the closed pool; along every sequence of calls
    the items in the store all carry the sentinel; and on the closed pool
    [Get] pops nothing: the store stays as it is and the call returns the
    result of [NewFunc], or the pool-empty error when there is none. *)
Theorem ttl_zero_items_never_expire (ex : ExitBehaviour) (p : Pool)
    (env : Env) :
  TTL p = 0 ->
  (forall now v, closed p = false ->
     Put now v p = (None, set_list p (list_ p ++ [mkItem 0 v]))) /\
  (forall clk r rest, closed p = false -> list_ p = r :: rest ->
     expire r = 0 ->
     Get clk p env = ((value r, None), set_list p rest, env)) /\
  (forall now, closed p = false ->
     checkExpireItems ex now p env = (p, env, false)) /\
  (forall c,
     (exists added, list_ (fst (perform ex c (p, env))) = list_ p ++ added) \/
     (exists clk, c = CallGet clk /\ closed p = false) \/
     c = CallClear \/
     (exists now, c = CallSweep now /\ closed p = true)) /\
  (forall cs, Forall (fun r => expire r = 0) (list_ p) ->
     TTL (fst (run ex cs (p, env))) = 0 /\
     Forall (fun r => expire r = 0) (list_ (fst (run ex cs (p, env))))) /\
  (forall clk, closed p = true ->
     snd (fst (Get clk p env)) = p /\
     (NewFunc p = None ->
        Get clk p env = ((nil_any, Some PoolEmpty), p, env)) /\
     (forall newf, NewFunc p = Some newf ->
        Get clk p env = (fst (newf env), p, snd (newf env)))).
Proof.
  intros Ht. split; [|split; [|split; [|split; [|split]]]].
  - intros now v Hc. unfold Put. rewrite Hc, Ht. reflexivity.
  - intros clk r rest Hc Hl Hr. unfold Get. rewrite Hc, Hl.
    cbn [Get_loop]. rewrite Hr. reflexivity.
  - intros now Hc. rewrite checkExpireItems_open_pool by exact Hc.
    unfold checkExpireItems_open. rewrite Ht. reflexivity.
  - intros c. destruct (perform_keeps_store ex c p env) as [Hm|Hk].
    + right. destruct c as [now v|clk| | |now]; cbn in Hm.
      * contradiction.
      * left. now exists clk.
      * right. now left.
      * contradiction.
      * right. right. exists now. split; [reflexivity|].
        destruct Hm as [Hm|Hm]; [exact Hm|contradiction].
    + left. exact Hk.
  - intros cs. revert p env Ht. induction cs as [|c cs IH]; intros p env Ht Hs.
    + cbn. auto.
    + cbn [run fold_left].
      destruct (perform_keeps_sentinel ex c p env Ht Hs) as [Ht' Hs'].
      destruct (perform ex c (p, env)) as [p' env'] eqn:E.
      apply (IH p' env' Ht' Hs').
  - intros clk Hc. split; [|split].
    + destruct (Get_config clk p env) as (l & Hp & Hl & _).
      rewrite Hp, (Hl Hc). apply set_list_same.
    + intros Hn. unfold Get. now rewrite Hc, Hn, set_list_same.
    + intros newf Hn. unfold Get. rewrite Hc, Hn, set_list_same.
      destruct (newf env); reflexivity.
Qed.

End NeverExpires.


(** ** Items with a deadline (TTL other than 0) *)

Section Deadlines.

Context {V Env : Type}.

Local Abbreviation poolItem := (poolItem V).
Local Abbreviation List := (List V).
Local Abbreviation any := (any V).
Local Abbreviation Pool := (Pool V Env).

(** The stamp [Put] computes when nothing overflows. *)
Lemma Put_stamp (now : Z) (v : any) (p : Pool) :
  closed p = false -> TTL p <> 0 -> Int64.in_range (TTL p) ->
  Put now v p =
  (None,
   set_list p
     (list_ p ++ [mkItem (Int64.wrap (now + Z.quot (TTL p) 1000000)) v])).
Proof.
  intros Hc Ht Hr. unfold Put. rewrite Hc.
  destruct (Z.eqb_spec (TTL p) 0) as [E|_]; [contradiction|].
  unfold Int64.add, Int64.div, PushBack.
  rewrite (Int64Facts.wrap_in_range (Z.quot (TTL p) 1000000)); [reflexivity|].
  unfold Int64.in_range, Int64.min_int, Int64.max_int in *.
  destruct (Z.le_gt_cases 0 (TTL p)) as [Hp|Hn].
  - rewrite Z.quot_div_nonneg by lia.
    pose proof (Z.div_pos (TTL p) 1000000 Hp ltac:(lia)).
    pose proof (Z.div_le_upper_bound (TTL p) 1000000 (2 ^ 63 - 1)
                  ltac:(lia) ltac:(lia)).
    lia.
  - replace (TTL p) with (- (- TTL p)) by lia.
    rewrite Z.quot_opp_l by lia. rewrite Z.quot_div_nonneg by lia.
    pose proof (Z.div_pos (- TTL p) 1000000 ltac:(lia) ltac:(lia)).
    pose proof (Z.div_le_upper_bound (- TTL p) 1000000 (2 ^ 63)
                  ltac:(lia) ltac:(lia)).
    lia.
Qed.

Lemma Get_loop_shift (clk : nat -> Z) (m n : nat) (l : List) :
  Get_loop clk (m + n) l = Get_loop (fun k => clk (m + k)%nat) n l.
Proof.
  revert n. induction l as [|f l IH]; intros n; cbn [Get_loop].
  - reflexivity.
  - destruct ((expire f =? 0) || (expire f >? clk (m + n)%nat)); [reflexivity|].
    rewrite <- IH. f_equal. lia.
Qed.


(** An item that fails the check at every reading is not returned: the
    loop returns an item that sits in front of it, or pops it, drops it
    and goes on with the items behind it. *)
Lemma Get_loop_dead (clk : nat -> Z) (it : poolItem) (rest : List) :
  (forall k, valid_at (clk k) it = false) ->
  forall pre n,
    (exists m, Get_loop clk n (pre ++ it :: rest) = Get_loop clk m rest) \/
    exists pre1 f pre2,
      pre = pre1 ++ f :: pre2 /\
      Get_loop clk n (pre ++ it :: rest) = (Some f, pre2 ++ it :: rest).
Proof.
  intros Hv. induction pre as [|g pre IH]; intros n; cbn [app Get_loop].
  - left. exists (S n). specialize (Hv n). unfold valid_at in Hv.
    now rewrite Hv.
  - destruct ((expire g =? 0) || (expire g >? clk n)).
    + right. exists [], g, pre. split; reflexivity.
    + destruct (IH (S n)) as [H|(pre1 & f & pre2 & Hp & H)].
      * now left.
      * right. exists (g :: pre1), f, pre2. split; [now rewrite Hp|exact H].
Qed.

Lemma Get_returns (clk : nat -> Z) (q : Pool) (env : Env) (f : poolItem)
    (l' : List) :
  closed q = false -> Get_loop clk 0 (list_ q) = (Some f, l') ->
  Get clk q env = ((value f, None), set_list q l', env).
Proof. intros Hc Hl. unfold Get. now rewrite Hc, Hl. Qed.

Lemma Get_same_loop (clk clk' : nat -> Z) (q : Pool) (env : Env) (l2 : List) :
  closed q = false -> Get_loop clk 0 (list_ q) = Get_loop clk' 0 l2 ->
  Get clk q env = Get clk' (set_list q l2) env.
Proof.
  intros Hc Hl. unfold Get. cbn [closed list_ set_list NewFunc].
  rewrite Hc, Hl. reflexivity.
Qed.

(** A [Get] whose clock readings are all at [T] or later returns from the
    store only items that carry the sentinel or a deadline after [T]. *)
Lemma Get_loop_returns_live_item (clk : nat -> Z) (n : nat) (l l' : List)
    (f : poolItem) (T : Z) :
  (forall k : nat, T <= clk k) -> Get_loop clk n l = (Some f, l') ->
  expire f = 0 \/ T < expire f.
Proof.
  intros Hk Hl. pose proof (Get_loop_spec clk n l) as Hs. rewrite Hl in Hs.
  destruct Hs as (dropped & _ & _ & Hv). unfold valid_at in Hv.
  apply orb_true_iff in Hv. destruct Hv as [Hv|Hv].
  - left. now apply Z.eqb_eq.
  - right. apply Z.gtb_lt in Hv. specialize (Hk (n + length dropped)%nat). lia.
Qed.


(** [Get] at or after the deadline of a stored item. *)
Lemma Get_dead_item (clk : nat -> Z) (q : Pool) (env : Env) (it : poolItem)
    (pre rest : List) :
  closed q = false -> list_ q = pre ++ it :: rest ->
  (forall k, valid_at (clk k) it = false) ->
  (exists m,
     Get clk q env = Get (fun k => clk (m + k)%nat) (set_list q rest) env) \/
  exists pre1 f pre2,
    pre = pre1 ++ f :: pre2 /\
    Get clk q env = ((value f, None), set_list q (pre2 ++ it :: rest), env).
Proof.
  intros Hc Hl Hv.
  destruct (Get_loop_dead clk it rest Hv pre 0%nat)
    as [[m H]|(pre1 & f & pre2 & Hp & H)]; rewrite <- Hl in H.
  - left. exists m. apply Get_same_loop; [exact Hc|].
    rewrite H. rewrite <- (Nat.add_0_r m) at 1. apply Get_loop_shift.
  - right. exists pre1, f, pre2. split; [exact Hp|]. now apply Get_returns.
Qed.

Lemma teardown_opt_app (ef : option (ExpireFunc_t V Env)) (l1 l2 : List)
    (env : Env) :
  teardown_opt ef (l1 ++ l2) env = teardown_opt ef l2 (teardown_opt ef l1 env).
Proof. destruct ef; [apply teardown_app|reflexivity]. Qed.

(** A sweep of an open pool gets through a past-due front of the store and
    goes on behind it. *)
Lemma sweep_removes_due_front (ex : ExitBehaviour) (now : Z) (q : Pool)
    (env : Env) (due rest : List) :
  closed q = false -> TTL q <> 0 -> -1 <= now ->
  list_ q = due ++ rest -> all_due now due ->
  exists gone l',
    rest = gone ++ l' /\
    checkExpireItems ex now q env =
    (set_list q l', teardown_opt (ExpireFunc q) (due ++ gone) env, false).
Proof.
  intros Hc Ht Hn Hl Hd.
  rewrite checkExpireItems_open_pool by exact Hc.
  unfold checkExpireItems_open.
  destruct (Z.eqb_spec (TTL q) 0) as [E|_]; [contradiction|].
  rewrite Hl, expireLoop_due by (assumption || lia).
  destruct (expireLoop_removes_due_prefix q now (-1) rest
              (teardown_opt (ExpireFunc q) due env)) as (gone & Hr & _ & He).
  destruct (expireLoop q now (-1) rest (teardown_opt (ExpireFunc q) due env))
    as [l' env'].
  cbn [fst snd] in Hr, He. exists gone, l'. split; [exact Hr|].
  rewrite He, teardown_opt_app. reflexivity.
Qed.

(** No sweep puts anything into the store or alters a stored item: what
    it leaves is a suffix of what it found. *)
Lemma sweep_leaves_suffix (ex : ExitBehaviour) (now : Z) (q : Pool)
    (env : Env) :
  exists gone,
    list_ q = gone ++ list_ (fst (fst (checkExpireItems ex now q env))).
Proof.
  assert (Hopen : forall (q' : Pool) env',
            exists gone,
              list_ q' = gone ++ list_ (fst (checkExpireItems_open now q' env'))).
  { intros q' env'. unfold checkExpireItems_open.
    destruct (TTL q' =? 0).
    - exists []. reflexivity.
    - destruct (expireLoop_removes_due_prefix q' now (-1) (list_ q') env')
        as (gone & Hl & _).
      destruct (expireLoop q' now (-1) (list_ q') env') as [l' e'].
      exists gone. exact Hl. }
  unfold checkExpireItems. destruct (closed q).
  - destruct (ExpireFunc q) as [f|].
    + rewrite drain_spec. destruct ex.
      * exists (list_ q). cbn. now rewrite app_nil_r.
      * rewrite checkExpireItems_open_empty by reflexivity.
        exists (list_ q). cbn. now rewrite app_nil_r.
    + destruct ex.
      * exists []. reflexivity.
      * rewrite set_list_same. destruct (Hopen q env) as (gone & Hg).
        destruct (checkExpireItems_open now q env). exists gone. exact Hg.
  - destruct (Hopen q env) as (gone & Hg).
    destruct (checkExpireItems_open now q env). exists gone. exact Hg.
Qed.




Lemma valid_at_after (now : Z) (it : poolItem) :
  expire it <> 0 -> expire it <= now -> valid_at now it = false.
Proof.
  intros H0 H. unfold valid_at.
  destruct (Z.eqb_spec (expire it) 0); [contradiction|].
  destruct (Z.gtb_spec (expire it) now); [lia|]. reflexivity.
Qed.


(** No sweep changes anything of the pool but its store. *)
Lemma checkExpireItems_config (ex : ExitBehaviour) (now : Z) (q : Pool)
    (env : Env) :
  exists l, fst (fst (checkExpireItems ex now q env)) = set_list q l.
Proof.
  assert (Hopen : forall (q' : Pool) env',
            exists l, fst (checkExpireItems_open now q' env') = set_list q' l).
  { intros q' env'. unfold checkExpireItems_open. destruct (TTL q' =? 0).
    - exists (list_ q'). cbn. now rewrite set_list_same.
    - destruct (expireLoop q' now (-1) (list_ q') env') as [l e].
      exists l. reflexivity. }
  unfold checkExpireItems. destruct (closed q).
  - destruct (match ExpireFunc q with
              | Some f => drain f (list_ q) env
              | None => (list_ q, env)
              end) as [l env1].
    destruct ex.
    + exists l. reflexivity.
    + destruct (Hopen (set_list q l) env1) as (l2 & H2).
      destruct (checkExpireItems_open now (set_list q l) env1) as [p2 e2].
      exists l2. cbn in *. rewrite H2. reflexivity.
  - destruct (Hopen q env) as (l2 & H2).
    destruct (checkExpireItems_open now q env) as [p2 e2].
    exists l2. exact H2.
Qed.

(** On a pool with a negative TTL every stored item is past due at every
    clock reading that is not before the readings of the [Put]s: this
    holds at the start (the store of [New] is empty) and every call keeps
    it. *)
Lemma ttl_negative_store_stays_due (ex : ExitBehaviour) (T : Z)
    (cs : list (call (V := V))) (p : Pool) (env : Env) :
  TTL p < 0 -> Int64.in_range (TTL p) -> T <= Int64.max_int ->
  Forall (put_time_within T) cs -> all_due T (list_ p) ->
  TTL (fst (run ex cs (p, env))) = TTL p /\
  all_due T (list_ (fst (run ex cs (p, env)))).
Proof.
  intros Ht Hr HT Hcs. revert p env Ht Hr.
  induction Hcs as [|c cs Hc Hcs IH]; intros p env Ht Hr Hd.
  - cbn. auto.
  - cbn [run fold_left].
    assert (Hstep : TTL (fst (perform ex c (p, env))) = TTL p /\
                    all_due T (list_ (fst (perform ex c (p, env))))).
    { destruct c as [now v|clk| | |now]; cbn [perform fst snd].
      - destruct (closed p) eqn:Hcl.
        + unfold Put. rewrite Hcl. cbn. auto.
        + rewrite Put_stamp by (assumption || lia). cbn. split; [reflexivity|].
          apply Forall_app. split; [exact Hd|].
          constructor; [|constructor]. cbn. cbn in Hc.
          assert (Hq : Z.quot (TTL p) 1000000 <= 0)
            by (apply Z.quot_le_upper_bound; lia).
          assert (Hq' : - 2 ^ 63 <= Z.quot (TTL p) 1000000).
          { unfold Int64.in_range, Int64.min_int in Hr.
            apply Z.quot_le_lower_bound; lia. }
          rewrite Int64Facts.wrap_in_range; [lia|].
          unfold Int64.in_range, Int64.min_int, Int64.max_int in *. lia.
      - destruct (Get_config clk p env) as (l & Hp & Hcl & Hop). rewrite Hp.
        cbn. split; [reflexivity|]. destruct (closed p).
        + now rewrite Hcl.
        + rewrite Hop by reflexivity.
          destruct (Get_loop_suffix clk 0 (list_ p)) as (gone & Hg).
          unfold all_due in Hd. rewrite Hg in Hd.
          apply Forall_app in Hd. apply Hd.
      - unfold Clear. destruct (ExpireFunc p) as [f|].
        + rewrite drain_spec. cbn. split; [reflexivity|constructor].
        + cbn. split; [reflexivity|constructor].
      - cbn. auto.
      - destruct (checkExpireItems_config ex now p env) as (l & Hl).
        destruct (sweep_leaves_suffix ex now p env) as (gone & Hg).
        rewrite Hl in *. cbn in *. split; [reflexivity|].
        unfold all_due in Hd. rewrite Hg in Hd.
        apply Forall_app in Hd. apply Hd. }
    destruct Hstep as [Ht' Hd'].
    destruct (perform ex c (p, env)) as [p' env'] eqn:E. cbn [fst] in *.
    destruct (IH p' env') as [H1 H2]; try assumption; try (rewrite Ht'; assumption).
    unfold run in H1, H2. split; [rewrite H1; exact Ht'|exact H2].
Qed.


(** C10.  On an open pool with TTL [d > 0], [Put] at clock reading [now]
    stamps the item with [now] plus the whole milliseconds of [d] (the
    64-bit sum of [now] and [d / 1000000]), and these whole milliseconds
    are the floor of [d]: when [d] is not a whole number of milliseconds
    the stamp falls short of [now + d].  For [d] below one millisecond
    the stamp is [now] itself, and the item is stale for every check that
    reads a clock value of [now] or more: [Get], if it gets to the item,
    pops it and drops it, and a sweep that finds it at the front pops it
    and hands its value to [ExpireFunc].  For [Get] the reading [now] is
    other than the sentinel 0. *)
Theorem ttl_below_one_millisecond_is_stale_at_once (p : Pool) (now : Z)
    (v : any) :
  closed p = false -> 0 < TTL p -> Int64.in_range (TTL p) ->
  Int64.in_range now ->
  Put now v p =
  (None,
   set_list p
     (list_ p ++ [mkItem (Int64.add now (TTL p / 1000000)) v])) /\
  TTL p / 1000000 * 1000000 <= TTL p < (TTL p / 1000000 + 1) * 1000000 /\
  (TTL p mod 1000000 <> 0 ->
   (now + TTL p / 1000000) * 1000000 < now * 1000000 + TTL p) /\
  (TTL p < 1000000 ->
   let it := mkItem now v in
   Put now v p = (None, set_list p (list_ p ++ [it])) /\
   (forall (q : Pool) (env : Env) clk pre rest,
      now <> 0 -> closed q = false -> list_ q = pre ++ it :: rest ->
      (forall k : nat, now <= clk k) ->
      (exists m,
         Get clk q env =
         Get (fun k => clk (m + k)%nat) (set_list q rest) env) \/
      exists pre1 f pre2,
        pre = pre1 ++ f :: pre2 /\
        Get clk q env =
        ((value f, None), set_list q (pre2 ++ it :: rest), env)) /\
   (forall ex (q : Pool) (env : Env) now' rest,
      closed q = false -> TTL q <> 0 -> list_ q = it :: rest ->
      now <= now' -> -1 <= now' ->
      exists gone l',
        rest = gone ++ l' /\
        checkExpireItems ex now' q env =
        (set_list q l',
         teardown_opt (ExpireFunc q) (it :: gone) env, false))).
Proof.
  intros Hc Hd Hr Hn.
  assert (Hput : Put now v p =
            (None, set_list p
               (list_ p ++ [mkItem (Int64.add now (TTL p / 1000000)) v]))).
  { rewrite Put_stamp by (assumption || lia).
    rewrite Z.quot_div_nonneg by lia. reflexivity. }
  pose proof (Z.div_mod (TTL p) 1000000 ltac:(lia)) as Hdm.
  pose proof (Z.mod_pos_bound (TTL p) 1000000 ltac:(lia)) as Hmb.
  split; [exact Hput|]. split; [lia|]. split; [lia|].
  intros Hsub it.
  assert (Hz : TTL p / 1000000 = 0) by (apply Z.div_small; lia).
  split; [|split].
  - rewrite Hput, Hz. unfold Int64.add. rewrite Z.add_0_r.
    rewrite Int64Facts.wrap_in_range by exact Hn. reflexivity.
  - intros q env clk pre rest Hz' Hqc Hl Hk.
    apply (Get_dead_item clk q env it pre rest Hqc Hl).
    intros k. apply valid_at_after; cbn; [exact Hz'|apply Hk].
  - intros ex q env now' rest Hqc Hqt Hl Hle Hm1.
    destruct (sweep_removes_due_front ex now' q env [it] rest)
      as (gone & l' & Hrest & Hs); try assumption.
    { constructor; [cbn; lia|constructor]. }
    exists gone, l'. split; [exact Hrest|exact Hs].
Qed.

End Deadlines.

(** ** The properties at concrete pools

    The values are natural numbers.  Where a callback has to be observed
    the environment is the record kept by [recordExpire]; otherwise it is
    [unit]. *)

Section Instances.

Local Abbreviation item := (@mkItem nat).

(** C7 at a closed and at an open pool. *)
Lemma Put_closed_fails_open_appends_witness :
  Put 1000 (Some 7%nat) (Close (New (Env := unit) 0 None [])) =
  (Some PoolClosed, Close (New 0 None [])) /\
  exists it : poolItem nat,
    value it = Some 7%nat /\
    Put 1000 (Some 7%nat) (New (Env := unit) 2000000000 None []) =
    (None,
     set_list (New 2000000000 None [])
       (PushBack it (list_ (New (Env := unit) 2000000000 None [])))) /\
    Size (snd (Put 1000 (Some 7%nat) (New (Env := unit) 2000000000 None []))) =
    Size (New (V := nat) (Env := unit) 2000000000 None []) + 1.
Proof.
  split.
  - apply (proj1 (Put_closed_fails_open_appends 1000 (Some 7%nat)
                    (Close (New (Env := unit) 0 None [])))).
    reflexivity.
  - apply (proj2 (Put_closed_fails_open_appends 1000 (Some 7%nat)
                    (New (Env := unit) 2000000000 None []))).
    reflexivity.
Defined.

(** C8 at a store of two items and the recording callback. *)
Lemma Clear_tears_down_each_item_once_witness :
  Clear (mkPool [item 0 (Some 1%nat); item 0 (Some 2%nat)] false 0 None
           (Some recordExpire)) [] =
  (mkPool [] false 0 None (Some recordExpire), [Some 1%nat; Some 2%nat]) /\
  Clear (mkPool (Env := unit) [item 0 (Some 1%nat); item 0 (Some 2%nat)]
           false 0 None None) tt =
  (mkPool [] false 0 None None, tt).
Proof.
  split.
  - exact (proj1 (Clear_tears_down_each_item_once
                    (mkPool [item 0 (Some 1%nat); item 0 (Some 2%nat)] false 0
                       None (Some recordExpire)) [])
             recordExpire eq_refl).
  - apply (proj1 (proj1 (proj2 (Clear_tears_down_each_item_once
                    (mkPool (Env := unit)
                       [item 0 (Some 1%nat); item 0 (Some 2%nat)] false 0
                       None None) tt)) eq_refl)).
Defined.

(** C5 with a [NewFunc] that counts its calls and returns the count: on a
    closed pool that holds an item, and on a store of one stale item. *)
Lemma Get_falls_back_to_NewFunc_witness :
  Get (fun _ => 1000)
    (mkPool [item 0 (Some 1%nat)] true 0
       (Some (fun n : nat => ((Some n, None), S n))) None) 5%nat =
  ((Some 5%nat, None),
   mkPool [item 0 (Some 1%nat)] true 0
     (Some (fun n : nat => ((Some n, None), S n))) None, 6%nat) /\
  Get (fun _ => 1000)
    (mkPool [item 900 (Some 1%nat)] false 2000000000
       (Some (fun n : nat => ((Some n, None), S n))) None) 5%nat =
  ((Some 5%nat, None),
   mkPool [] false 2000000000
     (Some (fun n : nat => ((Some n, None), S n))) None, 6%nat).
Proof.
  split.
  - apply (proj1 (Get_falls_back_to_NewFunc (fun _ => 1000)
                    (mkPool [item 0 (Some 1%nat)] true 0
                       (Some (fun n : nat => ((Some n, None), S n))) None)
                    5%nat (fun n : nat => ((Some n, None), S n)) eq_refl)).
    reflexivity.
  - apply (proj1 (proj2 (Get_falls_back_to_NewFunc (fun _ => 1000)
                    (mkPool [item 900 (Some 1%nat)] false 2000000000
                       (Some (fun n : nat => ((Some n, None), S n))) None)
                    5%nat (fun n : nat => ((Some n, None), S n)) eq_refl))).
    + reflexivity.
    + reflexivity.
Defined.

(** C6 on a store of one stale item. *)
Lemma Get_without_NewFunc_is_empty_witness :
  Get (fun _ => 1000)
    (mkPool (Env := unit) [item 900 (Some 1%nat)] false 2000000000 None None)
    tt =
  ((nil_any, Some PoolEmpty), mkPool [] false 2000000000 None None, tt).
Proof.
  apply (proj1 (proj2 (proj2 (Get_without_NewFunc_is_empty (fun _ => 1000)
           (mkPool (Env := unit) [item 900 (Some 1%nat)] false 2000000000
              None None) tt eq_refl)))).
  - reflexivity.
  - reflexivity.
Defined.

(** C9 at a store of two past-due items, one live item and one more
    past-due item behind it, swept at clock reading 1000. *)
Lemma sweep_pass_stops_at_first_live_item_witness :
  checkExpireItems ExitUnwinds 1000
    (mkPool
       [item 500 (Some 1%nat); item 900 (Some 2%nat); item 1500 (Some 3%nat);
        item 700 (Some 4%nat)]
       false 1000000000 None (Some recordExpire)) [] =
  (mkPool [item 1500 (Some 3%nat); item 700 (Some 4%nat)]
     false 1000000000 None (Some recordExpire),
   [Some 1%nat; Some 2%nat], false).
Proof.
  apply (proj1 (sweep_pass_stops_at_first_live_item ExitUnwinds 1000
           (mkPool
              [item 500 (Some 1%nat); item 900 (Some 2%nat);
               item 1500 (Some 3%nat); item 700 (Some 4%nat)]
              false 1000000000 None (Some recordExpire)) []
           [item 500 (Some 1%nat); item 900 (Some 2%nat)]
           eq_refl ltac:(discriminate) ltac:(lia)
           ltac:(repeat constructor; cbn; lia))
         (item 1500 (Some 3%nat)) [item 700 (Some 4%nat)]).
  - reflexivity.
  - cbn. lia.
Defined.

(** C3 (as amended) at a closed pool of two live items with the recording
    callback: the store is popped empty even though nothing is past due,
    and this does not depend on what [timer.Exit()] does. *)
Lemma closed_sweep_drains_then_exits_witness :
  checkExpireItems ExitReturns 1000
    (mkPool [item 5000 (Some 1%nat); item 6000 (Some 2%nat)] true 1000000000
       None (Some recordExpire)) [] =
  (mkPool [] true 1000000000 None (Some recordExpire),
   [Some 1%nat; Some 2%nat], true).
Proof.
  exact (proj1 (closed_sweep_drains_then_exits ExitReturns 1000
                  (mkPool [item 5000 (Some 1%nat); item 6000 (Some 2%nat)]
                     true 1000000000 None (Some recordExpire)) [])
           eq_refl recordExpire eq_refl).
Defined.

(** C3 as stated fails: the sweep of a closed pool that has no
    [ExpireFunc] pops nothing.  The pool is closed right after one [Put]
    with a TTL of ten seconds; the sweep at clock reading 5000 finds the
    item in the store and leaves it there, whether [timer.Exit()] ends the
    invocation or not. *)
Lemma closed_sweep_without_ExpireFunc_keeps_store :
  closed (Close (snd (Put 1000 (Some 7%nat)
                        (New (Env := unit) 10000000000 None [])))) = true /\
  list_ (fst (fst (checkExpireItems ExitUnwinds 5000
                     (Close (snd (Put 1000 (Some 7%nat)
                                    (New (Env := unit) 10000000000 None []))))
                     tt))) = [item 11000 (Some 7%nat)] /\
  list_ (fst (fst (checkExpireItems ExitReturns 5000
                     (Close (snd (Put 1000 (Some 7%nat)
                                    (New (Env := unit) 10000000000 None []))))
                     tt))) = [item 11000 (Some 7%nat)].
Proof. repeat split. Qed.

(** C4 (as amended) at a store of two items that carry the sentinel:
    [Get] on the open pool returns the front item however late the clock
    is. *)
Lemma ttl_zero_items_never_expire_witness :
  Get (fun _ => 9000000000000)
    (mkPool (Env := unit) [item 0 (Some 1%nat); item 0 (Some 2%nat)] false 0
       None None) tt =
  ((Some 1%nat, None), mkPool [item 0 (Some 2%nat)] false 0 None None, tt).
Proof.
  exact (proj1 (proj2 (ttl_zero_items_never_expire ExitUnwinds
                         (mkPool (Env := unit)
                            [item 0 (Some 1%nat); item 0 (Some 2%nat)]
                            false 0 None None) tt eq_refl))
           (fun _ => 9000000000000) (item 0 (Some 1%nat))
           [item 0 (Some 2%nat)] eq_refl eq_refl eq_refl).
Defined.

(** C4 as stated fails on a closed pool: New(0, nil); Put(7); Close();
    Get().  The item carries the sentinel and sits at the front of the
    store, yet [Get] does not enter its loop, returns the pool-empty
    error and leaves the item where it is. *)
Lemma ttl_zero_closed_pool_Get_skips_front_item :
  TTL (Close (snd (Put 1000 (Some 7%nat) (New (Env := unit) 0 None [])))) = 0 /\
  list_ (Close (snd (Put 1000 (Some 7%nat) (New (Env := unit) 0 None [])))) =
  [item 0 (Some 7%nat)] /\
  Get (fun _ => 1000)
    (Close (snd (Put 1000 (Some 7%nat) (New (Env := unit) 0 None [])))) tt =
  ((nil_any, Some PoolEmpty),
   Close (snd (Put 1000 (Some 7%nat) (New 0 None []))), tt) /\
  fst (fst (Get (fun _ => 1000)
              (Close (snd (Put 1000 (Some 7%nat)
                             (New (Env := unit) 0 None [])))) tt)) <>
  (Some 7%nat, None).
Proof. repeat split. discriminate. Qed.





(** C10 with a TTL of half a millisecond and a [Put] at clock reading
    1000: the item is stamped 1000. *)
Lemma ttl_below_one_millisecond_is_stale_at_once_witness :
  Put 1000 (Some 7%nat) (New (Env := unit) 500000 None []) =
  (None, mkPool [item 1000 (Some 7%nat)] false 500000 None None).
Proof.
  assert (H1 : 0 < 500000) by lia.
  assert (H2 : Int64.in_range 500000)
    by (unfold Int64.in_range, Int64.min_int, Int64.max_int; lia).
  assert (H3 : Int64.in_range 1000)
    by (unfold Int64.in_range, Int64.min_int, Int64.max_int; lia).
  assert (H4 : 500000 < 1000000) by lia.
  exact (proj1 (proj2 (proj2 (proj2
           (ttl_below_one_millisecond_is_stale_at_once
              (New (V := nat) (Env := unit) 500000 None [])
              1000 (Some 7%nat) eq_refl H1 H2 H3))) H4)).
Defined.

End Instances.


(** ** Laws of the pool over sequences of calls *)

Section PoolLaws.

Context {V Env : Type}.

Local Abbreviation poolItem := (poolItem V).
Local Abbreviation List := (List V).
Local Abbreviation any := (any V).
Local Abbreviation Pool := (Pool V Env).
Local Abbreviation call := (@call V).

Lemma run_cons (ex : ExitBehaviour) (c : call) (cs : list call)
    (s : Pool * Env) :
  run ex (c :: cs) s = run ex cs (perform ex c s).
Proof. reflexivity. Qed.

(** One call changes nothing of the pool but its store and its closed
    flag; the flag changes only by [Close], and only to true. *)
Lemma perform_config (ex : ExitBehaviour) (c : call) (p : Pool) (env : Env) :
  exists l b,
    fst (perform ex c (p, env)) =
    mkPool l b (TTL p) (NewFunc p) (ExpireFunc p) /\
    b = match c with
        | CallClose => true
        | _ => closed p
        end.
Proof.
  destruct c as [now v|clk| | |now]; cbn [perform fst snd].
  - unfold Put. destruct (closed p) eqn:Hc.
    + exists (list_ p), true. cbn. destruct p; cbn in *. now subst.
    + eexists _, false. cbn. unfold set_list. rewrite Hc.
      split; reflexivity.
  - destruct (Get_config clk p env) as (l & Hp & _). rewrite Hp.
    exists l, (closed p). split; reflexivity.
  - unfold Clear. destruct (ExpireFunc p) as [f|] eqn:Hf.
    + rewrite drain_spec. exists [], (closed p). cbn. unfold set_list.
      now rewrite Hf.
    + exists [], (closed p). cbn. unfold set_list. now rewrite Hf.
  - exists (list_ p), true. split; reflexivity.
  - destruct (checkExpireItems_config ex now p env) as (l & Hl). rewrite Hl.
    exists l, (closed p). split; reflexivity.
Qed.

(** The store of every open pool after [Put]s only has grown by one item
    for each of them. *)
Theorem Size_counts_Puts (ex : ExitBehaviour) (cs : list call) (p : Pool)
    (env : Env) :
  closed p = false -> Forall is_Put cs ->
  Size (fst (run ex cs (p, env))) = Size p + Z.of_nat (length cs) /\
  closed (fst (run ex cs (p, env))) = false /\
  snd (run ex cs (p, env)) = env.
Proof.
  intros Hc Hcs. revert p Hc. induction Hcs as [|c cs Hp Hcs IH]; intros p Hc.
  - cbn. repeat split; [lia|exact Hc].
  - rewrite run_cons. destruct c as [now v|clk| | |now]; try contradiction.
    cbn [perform fst snd]. set (p1 := snd (Put now v p)).
    assert (Hp1 : closed p1 = false /\ Size p1 = Size p + 1).
    { unfold p1, Put. rewrite Hc. cbn [snd]. split.
      - unfold set_list. cbn. exact Hc.
      - unfold Size, Len, PushBack. cbn [list_ set_list].
        rewrite length_app. cbn [length]. lia. }
    destruct Hp1 as [Hc1 Hs1].
    destruct (IH p1 Hc1) as (H1 & H2 & H3).
    rewrite H1, H2, H3, Hs1. repeat split. cbn [length]. lia.
Qed.

(** Once the closed flag is set it stays set whatever is called: every
    later [Put] fails with the pool-closed error, and the store only
    loses items, from its front. *)
Theorem closed_pool_stays_closed (ex : ExitBehaviour) (cs : list call)
    (p : Pool) (env : Env) :
  closed p = true ->
  closed (fst (run ex cs (p, env))) = true /\
  (exists gone, list_ p = gone ++ list_ (fst (run ex cs (p, env)))) /\
  (forall now v,
     Put now v (fst (run ex cs (p, env))) =
     (Some PoolClosed, fst (run ex cs (p, env)))).
Proof.
  intros Hc.
  assert (H : closed (fst (run ex cs (p, env))) = true /\
              exists gone, list_ p = gone ++ list_ (fst (run ex cs (p, env)))).
  { revert p env Hc. induction cs as [|c cs IH]; intros p env Hc.
    - cbn. split; [exact Hc|]. exists []. reflexivity.
    - rewrite run_cons.
      assert (Hstep : closed (fst (perform ex c (p, env))) = true /\
                exists gone,
                  list_ p = gone ++ list_ (fst (perform ex c (p, env)))).
      { split.
        - destruct (perform_config ex c p env) as (l & b & Hp & Hb).
          rewrite Hp. cbn. rewrite Hb, Hc. destruct c; reflexivity.
        - destruct c as [now v|clk| | |now]; cbn [perform fst snd].
          + unfold Put. rewrite Hc. exists []. reflexivity.
          + destruct (Get_config clk p env) as (l & Hp & Hl & _).
            rewrite Hp, (Hl Hc). exists []. reflexivity.
          + exists (list_ p). unfold Clear. destruct (ExpireFunc p).
            * rewrite drain_spec. cbn. now rewrite app_nil_r.
            * cbn. now rewrite app_nil_r.
          + exists []. reflexivity.
          + apply sweep_leaves_suffix. }
      destruct Hstep as [Hc1 [gone1 Hg1]].
      destruct (perform ex c (p, env)) as [p1 env1]. cbn [fst] in *.
      destruct (IH p1 env1 Hc1) as [Hc2 [gone2 Hg2]].
      split; [exact Hc2|]. exists (gone1 ++ gone2).
      rewrite Hg1, Hg2 at 1. now rewrite app_assoc. }
  destruct H as [H1 H2]. split; [exact H1|]. split; [exact H2|].
  intros now v. unfold Put. now rewrite H1.
Qed.

(** The TTL and the two callbacks of a pool are the same after every
    sequence of calls. *)
Theorem run_keeps_configuration (ex : ExitBehaviour) (cs : list call)
    (p : Pool) (env : Env) :
  TTL (fst (run ex cs (p, env))) = TTL p /\
  NewFunc (fst (run ex cs (p, env))) = NewFunc p /\
  ExpireFunc (fst (run ex cs (p, env))) = ExpireFunc p.
Proof.
  revert p env. induction cs as [|c cs IH]; intros p env.
  - cbn. auto.
  - rewrite run_cons.
    destruct (perform_config ex c p env) as (l & b & Hp & _).
    destruct (perform ex c (p, env)) as [p1 env1]. cbn [fst] in Hp.
    destruct (IH p1 env1) as (H1 & H2 & H3).
    rewrite H1, H2, H3, Hp. cbn. auto.
Qed.

Lemma Get_front_live (clk : nat -> Z) (p : Pool) (env : Env) (r : poolItem)
    (rest : List) :
  closed p = false -> list_ p = r :: rest -> valid_at (clk O) r = true ->
  Get clk p env = ((value r, None), set_list p rest, env).
Proof.
  intros Hc Hl Hv. unfold Get. rewrite Hc, Hl. cbn [Get_loop].
  unfold valid_at in Hv. now rewrite Hv.
Qed.

Lemma Get_times_live (clks : nat -> nat -> Z) (p : Pool) (env : Env) :
  closed p = false ->
  (forall r i k, In r (list_ p) -> valid_at (clks i k) r = true) ->
  Get_times (length (list_ p)) clks p env =
  (map (fun r => (value r, None)) (list_ p), set_list p [], env).
Proof.
  remember (list_ p) as l eqn:Hl. revert p clks Hl.
  induction l as [|r l IH]; intros p clks Hl Hc Hv.
  - cbn. rewrite Hl, set_list_same. reflexivity.
  - cbn [length Get_times map].
    rewrite (Get_front_live (clks O) p env r l Hc (eq_sym Hl))
      by (apply Hv; now left).
    rewrite (IH (set_list p l) (fun i => clks (S i))); try reflexivity.
    + exact Hc.
    + intros r' i k Hin. apply Hv. now right.
Qed.

(** As long as the stored items pass the validity check, successive [Get]s
    on an open pool hand them out in the order of the store, oldest
    first, one per call, and leave the store empty. *)
Theorem Gets_return_items_in_store_order (clks : nat -> nat -> Z) (p : Pool)
    (env : Env) :
  closed p = false ->
  (forall r i k, In r (list_ p) -> valid_at (clks i k) r = true) ->
  Get_times (length (list_ p)) clks p env =
  (map (fun r => (value r, None)) (list_ p), set_list p [], env).
Proof. apply Get_times_live. Qed.

(** On an open pool with TTL 0 and an empty store, the values put come
    back from as many [Get]s in the order they were put, whatever the
    clock shows, and the pool is then as it was. *)
Theorem ttl_zero_Puts_then_Gets_round_trip (ex : ExitBehaviour)
    (nvs : list (Z * any)) (clks : nat -> nat -> Z) (p : Pool) (env : Env) :
  closed p = false -> TTL p = 0 -> list_ p = [] ->
  run ex (map (fun nv => CallPut (fst nv) (snd nv)) nvs) (p, env) =
  (set_list p (map (fun nv => mkItem 0 (snd nv)) nvs), env) /\
  Get_times (length nvs) clks
    (fst (run ex (map (fun nv => CallPut (fst nv) (snd nv)) nvs) (p, env)))
    env =
  (map (fun nv => (snd nv, None)) nvs, p, env).
Proof.
  intros Hc Ht Hl.
  assert (Hrun : forall nvs (q : Pool),
            closed q = false -> TTL q = 0 ->
            run ex (map (fun nv => CallPut (fst nv) (snd nv)) nvs) (q, env) =
            (set_list q (list_ q ++ map (fun nv => mkItem 0 (snd nv)) nvs),
             env)).
  { induction nvs0 as [|nv nvs0 IH]; intros q Hqc Hqt.
    - cbn. now rewrite app_nil_r, set_list_same.
    - cbn [map]. rewrite run_cons. cbn [perform fst snd].
      unfold Put. rewrite Hqc, Hqt. cbn [Z.eqb snd].
      rewrite IH by assumption. unfold PushBack. cbn [list_ set_list].
      rewrite <- app_assoc. reflexivity. }
  rewrite (Hrun nvs p Hc Ht), Hl. cbn [app fst]. split; [reflexivity|].
  pose proof (Get_times_live clks
                (set_list p (map (fun nv => mkItem 0 (snd nv)) nvs)) env) as H.
  cbn [list_ set_list closed] in H. rewrite length_map in H.
  rewrite H.
  - rewrite map_map. cbn [value]. f_equal. f_equal.
    destruct p; cbn in *. now subst.
  - exact Hc.
  - intros r i k Hin. apply in_map_iff in Hin. destruct Hin as (nv & <- & _).
    reflexivity.
Qed.

(** [Get] never calls [ExpireFunc]: its result does not depend on the
    callback, and with no [NewFunc] it leaves the environment as it was,
    although the items it popped in front of the one it returns are gone
    from the store. *)
Theorem Get_never_calls_ExpireFunc (clk : nat -> Z) (p : Pool) (env : Env) :
  (forall ef,
     Get clk (with_ExpireFunc p ef) env =
     (fst (fst (Get clk p env)),
      with_ExpireFunc (snd (fst (Get clk p env))) ef,
      snd (Get clk p env))) /\
  (NewFunc p = None -> snd (Get clk p env) = env) /\
  (forall f l',
     closed p = false -> Get_loop clk 0 (list_ p) = (Some f, l') ->
     exists dropped,
       list_ p = dropped ++ f :: l' /\
       Get clk p env = ((value f, None), set_list p l', env)).
Proof.
  split; [|split].
  - intros ef. destruct p as [l c ttl nf ef0].
    unfold Get, with_ExpireFunc. cbn [closed list_ NewFunc TTL ExpireFunc].
    destruct c.
    + destruct nf as [newf|]; [destruct (newf env)|]; reflexivity.
    + destruct (Get_loop clk 0 l) as [[f|] l2]; [reflexivity|].
      destruct nf as [newf|]; [destruct (newf env)|]; reflexivity.
  - intros Hn. unfold Get. rewrite Hn.
    destruct (closed p); [reflexivity|].
    destruct (Get_loop clk 0 (list_ p)) as [[f|] l]; reflexivity.
  - intros f l' Hc Hl. pose proof (Get_loop_spec clk 0 (list_ p)) as Hs.
    rewrite Hl in Hs. destruct Hs as (dropped & Hd & _).
    exists dropped. split; [exact Hd|]. unfold Get. now rewrite Hc, Hl.
Qed.

(** [Get] on an open pool pops the stale items at the front of the store
    and drops them, and returns the first item that passes the check at
    its own clock reading; the items behind that one stay in the store in
    their order. *)
Theorem Get_returns_first_live_item (clk : nat -> Z) (p : Pool) (env : Env)
    (dropped : List) (f : poolItem) (rest : List) :
  closed p = false -> list_ p = dropped ++ f :: rest ->
  all_stale clk 0 dropped = true ->
  valid_at (clk (length dropped)) f = true ->
  Get clk p env = ((value f, None), set_list p rest, env).
Proof.
  intros Hc Hl Hs Hv. unfold Get. rewrite Hc, Hl.
  rewrite (Get_loop_stale clk 0 dropped (f :: rest) Hs).
  cbn [Nat.add Get_loop]. unfold valid_at in Hv. now rewrite Hv.
Qed.

End PoolLaws.


(** ** The sweep on a store in deadline order *)

Section SweepLaws.

Context {V Env : Type}.

Local Abbreviation poolItem := (poolItem V).
Local Abbreviation List := (List V).
Local Abbreviation any := (any V).
Local Abbreviation Pool := (Pool V Env).
Local Abbreviation call := (@call V).

Lemma ascending_suffix (l1 l2 : List) : ascending (l1 ++ l2) -> ascending l2.
Proof.
  induction l1 as [|r l1 IH]; cbn; [auto|]. intros [_ H]. auto.
Qed.

Lemma ascending_snoc (l : List) (r : poolItem) :
  ascending l -> Forall (fun r' => expire r' <= expire r) l ->
  ascending (l ++ [r]).
Proof.
  induction l as [|a l IH]; cbn; intros Ha Hb.
  - split; [constructor|exact I].
  - destruct Ha as [Ha1 Ha2]. inversion Hb as [|? ? Hb1 Hb2]; subst. split.
    + apply Forall_app. split; [exact Ha1|]. constructor; [exact Hb1|constructor].
    + apply IH; assumption.
Qed.

(** With a TTL other than 0 and a clock that does not go back between
    [Put]s, the store is in deadline order after every sequence of calls:
    the oldest deadline is at the front.  [T] is a clock reading not after
    the first [Put] and not before the readings that stamped the items
    already stored. *)
Theorem store_stays_in_deadline_order (ex : ExitBehaviour) (cs : list call)
    (p : Pool) (env : Env) (T : Z) :
  TTL p <> 0 -> Int64.in_range (TTL p) ->
  ascending (list_ p) ->
  Forall (fun r => expire r <= T + Z.quot (TTL p) 1000000) (list_ p) ->
  put_times_ascend (TTL p) T cs ->
  ascending (list_ (fst (run ex cs (p, env)))).
Proof.
  intros Ht Hr. revert p env T Ht Hr.
  induction cs as [|c cs IH]; intros p env T Ht Hr Ha Hb Hcs.
  - exact Ha.
  - rewrite run_cons.
    destruct (perform_config ex c p env) as (l1 & b1 & Hp1 & _).
    assert (Hsuffix : forall (q : Pool) e,
              put_times_ascend (TTL p) T cs ->
              fst (perform ex c (p, env)) = q ->
              (exists gone, list_ p = gone ++ list_ q) ->
              ascending (list_ (fst (run ex cs (q, e))))).
    { intros q e Hcs' Hq [gone Hg].
      assert (Htq : TTL q = TTL p) by (rewrite <- Hq, Hp1; reflexivity).
      apply (IH q e T); rewrite ?Htq; try assumption.
      - rewrite Hg in Ha. now apply ascending_suffix in Ha.
      - rewrite Hg in Hb. apply Forall_app in Hb. apply Hb. }
    destruct c as [now v|clk| | |now].
    + cbn [perform fst snd]. cbn in Hcs. destruct Hcs as (HT & Hnr & Hcs).
      destruct (closed p) eqn:Hc.
      * unfold Put. rewrite Hc. cbn [snd]. apply (IH p env now); try assumption.
        eapply Forall_impl; [|exact Hb]. cbn. intros r Hr0. lia.
      * rewrite Put_stamp by assumption. cbn [snd].
        rewrite Int64Facts.wrap_in_range by exact Hnr.
        apply (IH _ env now); cbn [TTL set_list list_]; try assumption.
        -- apply ascending_snoc; [exact Ha|]. cbn.
           eapply Forall_impl; [|exact Hb]. cbn. intros r Hr0. lia.
        -- apply Forall_app. split.
           ++ eapply Forall_impl; [|exact Hb]. cbn. intros r Hr0. lia.
           ++ constructor; [cbn; lia|constructor].
    + destruct (perform ex (CallGet clk) (p, env)) as [q e] eqn:E.
      apply (Hsuffix q e); [exact Hcs|reflexivity|].
      cbn [perform fst snd] in E. injection E as Hq He.
      destruct (Get_config clk p env) as (l & Hp & Hcl & Hop).
      rewrite Hp in Hq. subst q. cbn [list_ set_list].
      destruct (closed p).
      * exists []. now rewrite Hcl.
      * rewrite Hop by reflexivity. apply Get_loop_suffix.
    + destruct (perform ex CallClear (p, env)) as [q e] eqn:E.
      apply (Hsuffix q e); [exact Hcs|reflexivity|].
      cbn [perform fst snd] in E. unfold Clear in E.
      exists (list_ p). destruct (ExpireFunc p).
      * rewrite drain_spec in E. injection E as Hq He. subst q. cbn.
        now rewrite app_nil_r.
      * injection E as Hq He. subst q. cbn. now rewrite app_nil_r.
    + cbn [perform fst snd]. apply (IH (Close p) env T); assumption.
    + destruct (perform ex (CallSweep now) (p, env)) as [q e] eqn:E.
      apply (Hsuffix q e); [exact Hcs|reflexivity|].
      cbn [perform fst snd] in E.
      destruct (sweep_leaves_suffix ex now p env) as (gone & Hg).
      rewrite E in Hg. cbn [fst] in Hg. exists gone. exact Hg.
Qed.

(** On a store in deadline order a sweep of the open pool is complete: it
    removes exactly the past-due items, hands their values to
    [ExpireFunc] (when there is one) in store order, and every item it
    leaves is still live. *)
Theorem sweep_of_ordered_store_is_complete (ex : ExitBehaviour) (now : Z)
    (p : Pool) (env : Env) :
  closed p = false -> TTL p <> 0 -> -1 <= now -> ascending (list_ p) ->
  exists gone live,
    list_ p = gone ++ live /\
    all_due now gone /\
    Forall (fun r => now < expire r) live /\
    checkExpireItems ex now p env =
    (set_list p live, teardown_opt (ExpireFunc p) gone env, false).
Proof.
  intros Hc Ht Hn Ha.
  rewrite checkExpireItems_open_pool by exact Hc.
  unfold checkExpireItems_open.
  destruct (Z.eqb_spec (TTL p) 0) as [E|_]; [contradiction|].
  destruct (store_splits_at_first_live_item now (list_ p))
    as (due & Hd & [Hl|(item & rest & Hl & Hi)]).
  - exists due, []. rewrite app_nil_r. repeat split; try assumption.
    + constructor.
    + rewrite Hl at 1. rewrite <- (app_nil_r due) at 1.
      rewrite expireLoop_due, expireLoop_nil by (assumption || lia).
      reflexivity.
  - exists due, (item :: rest). repeat split; try assumption.
    + rewrite Hl in Ha. apply ascending_suffix in Ha. cbn in Ha.
      destruct Ha as [Ha _]. constructor; [exact Hi|].
      eapply Forall_impl; [|exact Ha]. cbn. intros r Hr0. lia.
    + rewrite Hl, expireLoop_due, expireLoop_stop by (assumption || lia).
      reflexivity.
Qed.

(** What the expiration loop leaves is empty or begins with a live item,
    unless its guard stopped it before the first pop. *)
Lemma expireLoop_leaves_live_front (p : Pool) (now latest : Z) (l : List)
    (env : Env) :
  latest <= now ->
  match fst (expireLoop p now latest l env) with
  | [] => True
  | item :: _ => now < expire item
  end.
Proof.
  revert latest env. induction l as [|r l IH]; intros latest env Hl.
  - rewrite expireLoop_nil. exact I.
  - cbn [expireLoop]. destruct (Z.gtb_spec latest now); [lia|].
    destruct (Z.gtb_spec (expire r) now) as [Hr|Hr].
    + cbn. lia.
    + apply IH. exact Hr.
Qed.

(** After a sweep of the open pool, another sweep that captures the same
    clock reading, or an earlier one, changes nothing and calls nothing. *)
Theorem sweep_again_changes_nothing (ex : ExitBehaviour) (now now2 : Z)
    (p : Pool) (env : Env) :
  closed p = false -> now2 <= now ->
  checkExpireItems ex now2
    (fst (fst (checkExpireItems ex now p env)))
    (snd (fst (checkExpireItems ex now p env))) =
  (fst (fst (checkExpireItems ex now p env)),
   snd (fst (checkExpireItems ex now p env)), false).
Proof.
  intros Hc Hle.
  rewrite (checkExpireItems_open_pool ex now p env Hc). cbn [fst snd].
  destruct (checkExpireItems_open now p env) as [p1 env1] eqn:E1.
  cbn [fst snd]. unfold checkExpireItems_open in E1.
  destruct (Z.eqb_spec (TTL p) 0) as [E|E].
  - injection E1 as <- <-. rewrite checkExpireItems_open_pool by exact Hc.
    unfold checkExpireItems_open. rewrite E. reflexivity.
  - pose proof (expireLoop_leaves_live_front p now (-1) (list_ p) env) as Hf.
    destruct (Z.le_gt_cases (-1) now) as [Hn|Hn].
    + specialize (Hf Hn).
      destruct (expireLoop p now (-1) (list_ p) env) as [l' env'].
      cbn [fst snd] in Hf. injection E1 as <- <-.
      rewrite checkExpireItems_open_pool by exact Hc.
      unfold checkExpireItems_open. cbn [TTL set_list list_].
      destruct (Z.eqb_spec (TTL p) 0) as [E'|_]; [contradiction|].
      destruct l' as [|item rest].
      * rewrite expireLoop_nil. reflexivity.
      * cbn [expireLoop]. destruct (-1 >? now2); [reflexivity|].
        destruct (Z.gtb_spec (expire item) now2); [reflexivity|lia].
    + clear Hf. rewrite (expireLoop_eq p now (-1)) in E1.
      destruct (Z.gtb_spec (-1) now); [|lia].
      injection E1 as <- <-. rewrite set_list_same.
      rewrite checkExpireItems_open_pool by exact Hc.
      unfold checkExpireItems_open.
      destruct (Z.eqb_spec (TTL p) 0) as [E'|_]; [contradiction|].
      rewrite (expireLoop_eq p now2 (-1)).
      destruct (Z.gtb_spec (-1) now2); [|lia].
      rewrite set_list_same. reflexivity.
Qed.

End SweepLaws.

(** ** Where the items of a pool with an [ExpireFunc] end up *)

Section Accounting.

Context {V : Type}.

Local Abbreviation poolItem := (poolItem V).
Local Abbreviation List := (List V).
Local Abbreviation any := (any V).
Local Abbreviation Pool := (Pool V (list any)).
Local Abbreviation call := (@call V).

Lemma teardown_recordExpire (l : List) (log : list any) :
  teardown recordExpire l log = log ++ map value l.
Proof.
  revert log. induction l as [|r l IH]; intros log.
  - cbn. now rewrite app_nil_r.
  - cbn [map]. change (teardown recordExpire (r :: l) log)
      with (teardown recordExpire l (recordExpire (value r) log)).
    rewrite IH. unfold recordExpire. now rewrite <- app_assoc.
Qed.

(** One call other than [Get] on a pool that records its teardowns. *)
Lemma perform_accounts (ex : ExitBehaviour) (c : call) (p : Pool)
    (log : list any) :
  ExpireFunc p = Some recordExpire -> is_not_Get c ->
  snd (perform ex c (p, log)) ++
  map value (list_ (fst (perform ex c (p, log)))) =
  log ++ map value (list_ p) ++
  match c with
  | CallPut _ v => if closed p then [] else [v]
  | _ => []
  end.
Proof.
  intros Hf Hc. destruct c as [now v|clk| | |now]; cbn [perform fst snd].
  - unfold Put. destruct (closed p); cbn [snd list_ set_list].
    + now rewrite app_nil_r.
    + unfold PushBack. rewrite map_app. cbn [map].
      destruct (TTL p =? 0); reflexivity.
  - contradiction.
  - unfold Clear. rewrite Hf, drain_spec, teardown_recordExpire. cbn.
    now rewrite !app_nil_r.
  - cbn. now rewrite app_nil_r.
  - rewrite app_nil_r. unfold checkExpireItems. destruct (closed p) eqn:Hcl.
    + rewrite Hf, drain_spec, teardown_recordExpire. destruct ex.
      * cbn. now rewrite app_nil_r.
      * rewrite checkExpireItems_open_empty by reflexivity. cbn.
        now rewrite app_nil_r.
    + unfold checkExpireItems_open. destruct (TTL p =? 0).
      * reflexivity.
      * destruct (expireLoop_removes_due_prefix p now (-1) (list_ p) log)
          as (gone & Hl & _ & He).
        destruct (expireLoop p now (-1) (list_ p) log) as [l' log'].
        cbn [fst snd] in *. rewrite He, Hf. cbn [teardown_opt].
        rewrite teardown_recordExpire, Hl at 1.
        rewrite map_app, <- app_assoc. reflexivity.
Qed.

(** On a pool whose [ExpireFunc] records the values it is called with,
    along every sequence of calls without a [Get], the record followed by
    the values still in the store is what it was at the start followed by
    the values the pool has taken in since: every item that has left the
    store has gone to [ExpireFunc] exactly once, in the order it was
    stored, and no item still in the store has. *)
Theorem every_item_is_stored_or_torn_down_once (ex : ExitBehaviour)
    (cs : list call) (p : Pool) (log : list any) :
  ExpireFunc p = Some recordExpire -> Forall is_not_Get cs ->
  snd (run ex cs (p, log)) ++ map value (list_ (fst (run ex cs (p, log)))) =
  log ++ map value (list_ p) ++ accepted (closed p) cs.
Proof.
  intros Hf Hcs. revert p log Hf.
  induction Hcs as [|c cs Hc Hcs IH]; intros p log Hf.
  - cbn. now rewrite app_nil_r.
  - rewrite run_cons.
    pose proof (perform_accounts ex c p log Hf Hc) as Hstep.
    destruct (perform_config ex c p log) as (l1 & b1 & Hp1 & Hb1).
    destruct (perform ex c (p, log)) as [p1 log1]. cbn [fst snd] in *.
    assert (Hf1 : ExpireFunc p1 = Some recordExpire)
      by (rewrite Hp1; exact Hf).
    rewrite (IH p1 log1 Hf1), app_assoc, Hstep.
    assert (Hcl : closed p1 = b1) by (rewrite Hp1; reflexivity).
    rewrite Hcl, Hb1, <- !app_assoc. f_equal. f_equal.
    destruct c as [now v|clk| | |now]; cbn [accepted app]; try reflexivity.
    destruct (closed p); reflexivity.
Qed.

End Accounting.

(** ** Breaker groups *)

Section BreakerGroupFacts.

Context {B W : Type} `{Breaker B W}.
Variable newGoogleSreBreaker : W -> B * W.

Local Abbreviation bgGet := (BreakerGroup_Get newGoogleSreBreaker).
Local Abbreviation bgDo := (BreakerGroup_Do newGoogleSreBreaker).

Lemma breakers_set_same (bg : BreakerGroup) (name : string) (b : B) :
  breakers_set bg name b name = Some b.
Proof. unfold breakers_set. now rewrite String.eqb_refl. Qed.

Lemma breakers_set_other (bg : BreakerGroup) (name k : string) (b : B) :
  k <> name -> breakers_set bg name b k = bg k.
Proof.
  intros Hk. unfold breakers_set.
  destruct (String.eqb_spec k name); [contradiction|reflexivity].
Qed.

Lemma BreakerGroup_Get_frame (name : string) (bg : @BreakerGroup B) (w : W) :
  forall k, k <> name -> snd (fst (bgGet name bg w)) k = bg k.
Proof.
  intros k Hk. unfold BreakerGroup_Get. destruct (bg name) as [b|].
  - reflexivity.
  - destruct (newGoogleSreBreaker w) as [b w']. cbn.
    now apply breakers_set_other.
Qed.

(** [Get] is get-or-create.  The group afterwards holds under [name] the
    breaker it returns and holds every other name as before; a breaker
    that is already there is returned as it is, with no constructor call;
    and a second [Get] of the same name returns the same breaker and
    changes nothing. *)
Theorem BreakerGroup_Get_creates_once (name : string)
    (bg : @BreakerGroup B) (w : W) :
  snd (fst (bgGet name bg w)) name = Some (fst (fst (bgGet name bg w))) /\
  (forall k, k <> name -> snd (fst (bgGet name bg w)) k = bg k) /\
  (forall b, bg name = Some b -> bgGet name bg w = (b, bg, w)) /\
  (bg name = None ->
   bgGet name bg w =
   (fst (newGoogleSreBreaker w),
    breakers_set bg name (fst (newGoogleSreBreaker w)),
    snd (newGoogleSreBreaker w))) /\
  bgGet name (snd (fst (bgGet name bg w))) (snd (bgGet name bg w)) = bgGet name bg w.
Proof.
  unfold BreakerGroup_Get. destruct (bg name) as [b|] eqn:Hb.
  - cbn. rewrite Hb. split; [reflexivity|]. split; [|split; [|split]].
    + reflexivity.
    + intros b' Hb'. now injection Hb' as <-.
    + discriminate.
    + reflexivity.
  - destruct (newGoogleSreBreaker w) as [b w'] eqn:Hn. cbn.
    rewrite breakers_set_same. split; [reflexivity|]. split; [|split; [|split]].
    + intros k Hk. now apply breakers_set_other.
    + discriminate.
    + reflexivity.
    + reflexivity.
Qed.

(** [Do] when the breaker refuses: [run] is not called (the outcome is
    the same whatever [run] is), the error of [Allow] is what [Do]
    returns, and [accept] is asked about that very error; the breaker is
    then told [Accept] or [Reject] according to the answer. *)
Theorem BreakerGroup_Do_refused_never_runs (name : string)
    (run : W -> option error * W) (accept : option error -> W -> bool * W)
    (bg : @BreakerGroup B) (w : W) (e : error) (b1 : B) (w2 : W) :
  Allow (fst (fst (bgGet name bg w))) (snd (bgGet name bg w)) = (Some e, b1, w2) ->
  (forall run', bgDo name run' accept bg w = bgDo name run accept bg w) /\
  bgDo name run accept bg w =
  (Some e,
   breakers_set (snd (fst (bgGet name bg w))) name
     (fst (if fst (accept (Some e) w2)
           then Accept b1 (snd (accept (Some e) w2))
           else Reject b1 (snd (accept (Some e) w2)))),
   snd (if fst (accept (Some e) w2)
        then Accept b1 (snd (accept (Some e) w2))
        else Reject b1 (snd (accept (Some e) w2)))).
Proof.
  intros Ha.
  assert (Hdo : forall run0,
            bgDo name run0 accept bg w =
            (Some e,
             breakers_set (snd (fst (bgGet name bg w))) name
               (fst (if fst (accept (Some e) w2)
                     then Accept b1 (snd (accept (Some e) w2))
                     else Reject b1 (snd (accept (Some e) w2)))),
             snd (if fst (accept (Some e) w2)
                  then Accept b1 (snd (accept (Some e) w2))
                  else Reject b1 (snd (accept (Some e) w2))))).
  { intros run0. unfold BreakerGroup_Do.
    destruct (BreakerGroup_Get newGoogleSreBreaker name bg w)
      as [[b bg1] w1]. cbn [fst snd] in *. rewrite Ha.
    destruct (accept (Some e) w2) as [ok w4]. cbn [fst snd].
    destruct ok; [destruct (Accept b1 w4)|destruct (Reject b1 w4)];
      reflexivity. }
  split; [|apply Hdo]. intros run'. now rewrite !Hdo.
Qed.

(** [Do] when the breaker allows the call: [run] is called once, on the
    world [Allow] left, and its error is returned as it is; the breaker
    is told [Accept] when [accept] says so and [Reject] otherwise.  In
    every case [Do] leaves the breakers of all other names as they were
    and the group holds a breaker under [name] afterwards. *)
Theorem BreakerGroup_Do_allowed_runs_once (name : string)
    (run : W -> option error * W) (accept : option error -> W -> bool * W)
    (bg : @BreakerGroup B) (w : W) :
  (forall b1 w2,
     Allow (fst (fst (bgGet name bg w))) (snd (bgGet name bg w)) = (None, b1, w2) ->
     fst (fst (bgDo name run accept bg w)) = fst (run w2) /\
     snd (fst (bgDo name run accept bg w)) name =
     Some (fst (if fst (accept (fst (run w2)) (snd (run w2)))
                then Accept b1 (snd (accept (fst (run w2)) (snd (run w2))))
                else Reject b1 (snd (accept (fst (run w2)) (snd (run w2))))))) /\
  (forall k, k <> name -> snd (fst (bgDo name run accept bg w)) k = bg k) /\
  snd (fst (bgDo name run accept bg w)) name <> None.
Proof.
  pose proof (BreakerGroup_Get_frame name bg w) as Hframe.
  unfold BreakerGroup_Do.
  destruct (BreakerGroup_Get newGoogleSreBreaker name bg w) as [[b bg1] w1].
  cbn [fst snd] in *.
  destruct (Allow b w1) as [[berr b1'] w2'].
  split; [|split].
  - intros b1 w2 Ha. injection Ha as -> -> ->.
    destruct (run w2) as [err w3]. cbn [fst snd].
    destruct (accept err w3) as [ok w4]. cbn [fst snd].
    destruct ok; [destruct (Accept b1 w4)|destruct (Reject b1 w4)];
      cbn; rewrite breakers_set_same; split; reflexivity.
  - intros k Hk.
    destruct (match berr with
              | Some e => (Some e, w2')
              | None => run w2'
              end) as [err w3].
    destruct (accept err w3) as [ok w4].
    destruct (if ok then Accept b1' w4 else Reject b1' w4) as [b2 w5].
    cbn. rewrite breakers_set_other by exact Hk. now apply Hframe.
  - destruct (match berr with
              | Some e => (Some e, w2')
              | None => run w2'
              end) as [err w3].
    destruct (accept err w3) as [ok w4].
    destruct (if ok then Accept b1' w4 else Reject b1' w4) as [b2 w5].
    cbn. rewrite breakers_set_same. discriminate.
Qed.

End BreakerGroupFacts.

(** ** Records made from query results *)

Section ParseRowsFacts.

Context {V : Type}.

Lemma store_values_other (columns : list string) (values : list (option V))
    (record : Fields) (c : string) :
  ~ In c columns -> store_values columns values record c = record c.
Proof.
  revert values record.
  induction columns as [|c0 columns IH]; intros values record Hc.
  - reflexivity.
  - destruct values as [|col values]; [reflexivity|]. cbn [store_values].
    rewrite IH by (intros Hin; apply Hc; now right).
    destruct col as [v|]; [|reflexivity].
    unfold Fields_set. destruct (String.eqb_spec c c0) as [->|_];
      [|reflexivity].
    exfalso. apply Hc. now left.
Qed.

(** One row: the cell of column [c] replaces what the record held under
    [c] when it is not nil, and leaves it when it is nil. *)
Lemma store_values_cell (columns : list string) (values : list (option V))
    (record : Fields) (j : nat) (c : string) (cell : option V) :
  NoDup columns -> nth_error columns j = Some c ->
  nth_error values j = Some cell ->
  store_values columns values record c =
  match cell with
  | Some v => Some v
  | None => record c
  end.
Proof.
  revert values record j.
  induction columns as [|c0 columns IH]; intros values record j Hd Hc Hv.
  - destruct j; discriminate.
  - inversion Hd as [|? ? Hnin Hd']; subst.
    destruct values as [|col values]; [destruct j; discriminate|].
    cbn [store_values]. destruct j as [|j]; cbn in Hc, Hv.
    + injection Hc as ->. injection Hv as ->.
      rewrite store_values_other by exact Hnin.
      destruct cell as [v|]; [|reflexivity].
      unfold Fields_set. now rewrite String.eqb_refl.
    + rewrite (IH values _ j Hd' Hc Hv).
      destruct cell as [v|]; [reflexivity|].
      destruct col as [v0|]; [|reflexivity].
      unfold Fields_set. destruct (String.eqb_spec c c0) as [->|_];
        [|reflexivity].
      exfalso. apply Hnin. eapply nth_error_In. exact Hc.
Qed.

Lemma ParseRows_loop_ok (columns : list string)
    (rows : list (list (option V))) (record : Fields) (n : nat) :
  ParseRows_loop columns (map Some rows) record n =
  Some (mkRecords
          (fold_left (fun m r => store_values columns r m) rows record)
          (n + length rows)).
Proof.
  revert record n. induction rows as [|r rows IH]; intros record n; cbn.
  - now rewrite Nat.add_0_r.
  - rewrite IH. do 2 f_equal. lia.
Qed.

(** The slice [ParseRows] returns has one entry per row, and all of them
    are the same map.  For a column [c] (the column names being
    distinct), every entry shows under [c] the value of the last row
    whose cell for [c] is not nil: an entry for an earlier row does not
    show that row's own value, and an entry for a later row, whose cell
    is nil, shows the stale value. *)
Theorem ParseRows_entries_share_one_record (columns : list string)
    (before after : list (list (option V))) (r : list (option V))
    (j : nat) (c : string) (v : V) :
  NoDup columns -> nth_error columns j = Some c ->
  nth_error r j = Some (Some v) ->
  (forall r', In r' after -> nth_error r' j = Some None) ->
  exists rs,
    ParseRows columns (map Some (before ++ r :: after)) = Some rs /\
    entries rs = length (before ++ r :: after) /\
    forall i, (i < length (before ++ r :: after))%nat ->
      Records_at rs i c = Some v.
Proof.
  intros Hd Hc Hr Hafter. unfold ParseRows. rewrite ParseRows_loop_ok.
  cbn [Nat.add]. eexists. split; [reflexivity|]. cbn [entries shared]. split; [reflexivity|].
  intros i Hi. unfold Records_at. cbn [entries shared].
  destruct (Nat.ltb_spec i (length (before ++ r :: after))) as [_|Hge];
    [|lia].
  clear Hi. rewrite fold_left_app. cbn [fold_left].
  set (m0 := fold_left (fun m r0 => store_values columns r0 m) before
               Fields_empty).
  assert (Hm : store_values columns r m0 c = Some v)
    by (apply (store_values_cell columns r m0 j c (Some v) Hd Hc Hr)).
  revert Hm. generalize (store_values columns r m0). clear m0.
  induction after as [|r' after IH]; intros m Hm; cbn [fold_left].
  - exact Hm.
  - apply IH.
    + intros r0 Hin. apply Hafter. now right.
    + rewrite (store_values_cell columns r' m j c None Hd Hc); [exact Hm|].
      apply Hafter. now left.
Qed.


End ParseRowsFacts.

(** ** Sizes written as text *)

Section StrToSizeFacts.

Context {float64 : Type}.
Variable ParseFloat : string -> float64.
Variable fmul : float64 -> float64 -> float64.
Variable f1024 : float64.
Variable to_int64 : float64 -> Z.
Variable unicode_ToLower : string -> string.

Local Abbreviation toLower := (ToLower unicode_ToLower).
Local Abbreviation convert :=
  (convert_size fmul f1024 to_int64 unicode_ToLower).
Local Abbreviation strToSize :=
  (StrToSize ParseFloat fmul f1024 to_int64 unicode_ToLower).

Local Open Scope string_scope.

Lemma substring_whole (s : string) : substring 0 (String.length s) s = s.
Proof. induction s as [|c s IH]; cbn; [reflexivity|now rewrite IH]. Qed.

Lemma lower_byte_number (c : ascii) :
  is_number_byte (lower_byte c) = is_number_byte c.
Proof. destruct c as [[] [] [] [] [] [] [] []]; reflexivity. Qed.

Lemma lower_byte_fixes_number (c : ascii) :
  is_number_byte c = true -> lower_byte c = c.
Proof.
  destruct c as [[] [] [] [] [] [] [] []]; intros Hc;
    try reflexivity; discriminate Hc.
Qed.

Lemma lower_byte_idem (c : ascii) : lower_byte (lower_byte c) = lower_byte c.
Proof. destruct c as [[] [] [] [] [] [] [] []]; reflexivity. Qed.

Lemma lower_byte_ASCII (c : ascii) : is_ASCII (lower_byte c) = is_ASCII c.
Proof. destruct c as [[] [] [] [] [] [] [] []]; reflexivity. Qed.

Lemma map_lower_ASCII (s : string) :
  all_bytes is_ASCII (map_bytes lower_byte s) = all_bytes is_ASCII s.
Proof.
  induction s as [|c s IH]; cbn [all_bytes map_bytes]; [reflexivity|].
  now rewrite lower_byte_ASCII, IH.
Qed.

Lemma map_lower_idem (s : string) :
  map_bytes lower_byte (map_bytes lower_byte s) = map_bytes lower_byte s.
Proof.
  induction s as [|c s IH]; cbn [map_bytes]; [reflexivity|].
  now rewrite lower_byte_idem, IH.
Qed.

Lemma map_lower_number (s : string) :
  all_bytes is_number_byte s = true -> map_bytes lower_byte s = s.
Proof.
  induction s as [|c s IH]; cbn [all_bytes map_bytes]; [reflexivity|].
  intros Hs. apply andb_prop in Hs. destruct Hs as [Hc Hs].
  now rewrite lower_byte_fixes_number, IH.
Qed.

Lemma map_bytes_append (f : ascii -> ascii) (s1 s2 : string) :
  map_bytes f (s1 ++ s2) = map_bytes f s1 ++ map_bytes f s2.
Proof.
  induction s1 as [|c s1 IH]; cbn [append map_bytes];
    [reflexivity|now rewrite IH].
Qed.

Lemma all_bytes_append (f : ascii -> bool) (s1 s2 : string) :
  all_bytes f (s1 ++ s2) = all_bytes f s1 && all_bytes f s2.
Proof.
  induction s1 as [|c s1 IH]; cbn [append all_bytes]; [reflexivity|].
  now rewrite IH, andb_assoc.
Qed.

(** The two slices the loop of [StrToSize] makes of [num ++ unit]. *)
Lemma scan_of_parts (num unit : string) :
  all_bytes is_number_byte num = true -> starts_unit unit ->
  substring 0 (scan_index (num ++ unit)) (num ++ unit) = num /\
  substring (scan_index (num ++ unit))
    (String.length (num ++ unit) - scan_index (num ++ unit)) (num ++ unit) =
  unit.
Proof.
  intros Hn Hu. induction num as [|c num IH].
  - cbn [append]. destruct unit as [|c r].
    + split; reflexivity.
    + cbn in Hu. cbn [scan_index]. rewrite Hu. split; [reflexivity|].
      rewrite Nat.sub_0_r. apply substring_whole.
  - cbn in Hn. apply andb_prop in Hn. destruct Hn as [Hc Hn].
    destruct (IH Hn) as [H1 H2].
    cbn [append scan_index String.length]. rewrite Hc.
    cbn [substring Nat.sub]. rewrite H1. split; [reflexivity|exact H2].
Qed.

(** Every string is digits and dots followed by a unit. *)
Lemma parts_of_string (s : string) :
  exists num unit,
    s = num ++ unit /\ all_bytes is_number_byte num = true /\
    starts_unit unit.
Proof.
  induction s as [|c s (num & unit & Hs & Hn & Hu)].
  - exists EmptyString, EmptyString. repeat split.
  - destruct (is_number_byte c) eqn:Hc.
    + exists (String c num), unit. cbn. rewrite Hc, Hn, <- Hs. repeat split.
      exact Hu.
    + exists EmptyString, (String c s). repeat split. exact Hc.
Qed.

Lemma StrToSize_of_parts (num unit : string) :
  all_bytes is_number_byte num = true -> starts_unit unit ->
  strToSize (num ++ unit) = convert (ParseFloat num) unit.
Proof.
  intros Hn Hu. unfold StrToSize.
  destruct (scan_of_parts num unit Hn Hu) as [H1 H2].
  now rewrite H1, H2.
Qed.

(** [StrToSize] hands to [ParseFloat] the longest prefix of the string
    made of digits and dots, and takes what is left as the unit: for
    every string there is exactly this way of reading it. *)
Theorem StrToSize_reads_number_then_unit :
  (forall num unit,
     all_bytes is_number_byte num = true -> starts_unit unit ->
     strToSize (num ++ unit) = convert (ParseFloat num) unit) /\
  (forall s,
     exists num unit,
       s = num ++ unit /\ all_bytes is_number_byte num = true /\
       starts_unit unit /\
       strToSize s = convert (ParseFloat num) unit).
Proof.
  split; [exact StrToSize_of_parts|]. intros s.
  destruct (parts_of_string s) as (num & unit & Hs & Hn & Hu).
  exists num, unit. repeat split; try assumption. rewrite Hs.
  now apply StrToSize_of_parts.
Qed.

Lemma map_lower_empty (s : string) :
  String.eqb (map_bytes lower_byte s) EmptyString = String.eqb s EmptyString.
Proof. destruct s; reflexivity. Qed.

(** The unit is matched without regard to the case of its ASCII letters:
    on a string of ASCII bytes [StrToSize] gives the same result for the
    string and for its lower-case form. *)
Theorem StrToSize_ignores_case (s : string) :
  all_bytes is_ASCII s = true -> strToSize (toLower s) = strToSize s.
Proof.
  intros Ha. unfold ToLower at 1. rewrite Ha.
  destruct (parts_of_string s) as (num & unit & -> & Hn & Hu).
  rewrite all_bytes_append in Ha. apply andb_prop in Ha.
  destruct Ha as [_ Hua].
  rewrite map_bytes_append, (map_lower_number num Hn).
  rewrite (StrToSize_of_parts num unit Hn Hu).
  rewrite (StrToSize_of_parts num (map_bytes lower_byte unit) Hn).
  - unfold convert_size. rewrite map_lower_empty.
    unfold ToLower. rewrite map_lower_ASCII, Hua, map_lower_idem.
    reflexivity.
  - destruct unit as [|c r]; [exact I|]. cbn [map_bytes starts_unit] in *.
    now rewrite lower_byte_number.
Qed.

(** A string whose first byte after the digits and dots is not the
    initial of a known unit (in either case) gives -1: so does every
    string with a sign in front or a space before the unit.  The bytes of
    the unit are ASCII. *)
Theorem StrToSize_unknown_unit_is_minus_one (num : string) (c : ascii)
    (rest : string) :
  all_bytes is_number_byte num = true -> is_number_byte c = false ->
  is_unit_initial c = false -> all_bytes is_ASCII (String c rest) = true ->
  strToSize (num ++ String c rest) = -1.
Proof.
  intros Hn Hc Hi Ha.
  rewrite (StrToSize_of_parts num (String c rest) Hn Hc).
  unfold convert_size, ToLower. rewrite Ha.
  cbn [map_bytes String.eqb]. unfold is_unit_initial in Hi.
  cbn [existsb] in Hi.
  repeat (apply orb_false_elim in Hi; destruct Hi as [? Hi]).
  unfold one_of. cbn [existsb String.eqb].
  repeat match goal with
         | E : Ascii.eqb (lower_byte c) _ = false |- _ => rewrite E; clear E
         end.
  reflexivity.
Qed.

End StrToSizeFacts.

(** ** The further properties at concrete inputs *)

Section MoreInstances.

Local Abbreviation item := (@mkItem nat).

(** Two [Put]s on a new pool: the size is 2. *)
Lemma Size_counts_Puts_witness :
  Size (fst (run ExitUnwinds [CallPut 1 (Some 1%nat); CallPut 2 (Some 2%nat)]
               (New (Env := unit) 0 None [], tt))) = 2.
Proof.
  exact (proj1 (Size_counts_Puts ExitUnwinds
                  [CallPut 1 (Some 1%nat); CallPut 2 (Some 2%nat)]
                  (New (Env := unit) 0 None []) tt eq_refl
                  ltac:(repeat constructor))).
Defined.

(** A closed pool that holds one item, after a [Put], a [Get] and a
    sweep: still closed. *)
Lemma closed_pool_stays_closed_witness :
  closed (fst (run ExitUnwinds
                 [CallPut 5 (Some 9%nat); CallGet (fun _ => 5); CallSweep 7]
                 (mkPool (Env := unit) [item 0 (Some 1%nat)] true 0 None None,
                  tt))) = true.
Proof.
  exact (proj1 (closed_pool_stays_closed ExitUnwinds
                  [CallPut 5 (Some 9%nat); CallGet (fun _ => 5); CallSweep 7]
                  (mkPool (Env := unit) [item 0 (Some 1%nat)] true 0 None None)
                  tt eq_refl)).
Defined.

(** Two [Get]s on a store of two items without deadline. *)
Lemma Gets_return_items_in_store_order_witness :
  Get_times 2 (fun _ _ => 1000)
    (mkPool (Env := unit) [item 0 (Some 1%nat); item 0 (Some 2%nat)] false 0
       None None) tt =
  ([(Some 1%nat, None); (Some 2%nat, None)],
   mkPool [] false 0 None None, tt).
Proof.
  apply (Gets_return_items_in_store_order (fun _ _ => 1000)
           (mkPool (Env := unit) [item 0 (Some 1%nat); item 0 (Some 2%nat)]
              false 0 None None) tt eq_refl).
  intros r i k [<-|[<-|[]]]; reflexivity.
Defined.

(** Two [Put]s and two [Get]s on a new pool with TTL 0. *)
Lemma ttl_zero_Puts_then_Gets_round_trip_witness :
  Get_times 2 (fun _ _ => 9000000)
    (fst (run ExitUnwinds
            (map (fun nv => CallPut (fst nv) (snd nv))
               [(10, Some 1%nat); (20, Some 2%nat)])
            (New (Env := unit) 0 None [], tt))) tt =
  ([(Some 1%nat, None); (Some 2%nat, None)], New 0 None [], tt).
Proof.
  exact (proj2 (ttl_zero_Puts_then_Gets_round_trip ExitUnwinds
                  [(10, Some 1%nat); (20, Some 2%nat)] (fun _ _ => 9000000)
                  (New (Env := unit) 0 None []) tt eq_refl eq_refl eq_refl)).
Defined.

(** A [Get] that drops a stale item leaves the record of the recording
    callback empty. *)
Lemma Get_never_calls_ExpireFunc_witness :
  snd (Get (fun _ => 1000)
         (mkPool [item 500 (Some 1%nat)] false 1000000000 None
            (Some recordExpire)) []) = [].
Proof.
  exact (proj1 (proj2 (Get_never_calls_ExpireFunc (fun _ => 1000)
                         (mkPool [item 500 (Some 1%nat)] false 1000000000 None
                            (Some recordExpire)) [])) eq_refl).
Defined.

(** One stale item, then a live one, then another. *)
Lemma Get_returns_first_live_item_witness :
  Get (fun _ => 1000)
    (mkPool (Env := unit)
       [item 500 (Some 1%nat); item 2000 (Some 2%nat); item 3000 (Some 3%nat)]
       false 1000000000 None None) tt =
  ((Some 2%nat, None),
   mkPool [item 3000 (Some 3%nat)] false 1000000000 None None, tt).
Proof.
  exact (Get_returns_first_live_item (fun _ => 1000)
           (mkPool (Env := unit)
              [item 500 (Some 1%nat); item 2000 (Some 2%nat);
               item 3000 (Some 3%nat)]
              false 1000000000 None None) tt
           [item 500 (Some 1%nat)] (item 2000 (Some 2%nat))
           [item 3000 (Some 3%nat)] eq_refl eq_refl eq_refl eq_refl).
Defined.

(** [Put]s at readings 10, 20 and 20 with a [Get] in between, TTL one
    second. *)
Lemma store_stays_in_deadline_order_witness :
  ascending
    (list_ (fst (run ExitUnwinds
                   [CallPut 10 (Some 1%nat); CallPut 20 (Some 2%nat);
                    CallGet (fun _ => 15); CallPut 20 (Some 3%nat)]
                   (New (Env := unit) 1000000000 None [], tt)))).
Proof.
  apply (store_stays_in_deadline_order ExitUnwinds
           [CallPut 10 (Some 1%nat); CallPut 20 (Some 2%nat);
            CallGet (fun _ => 15); CallPut 20 (Some 3%nat)]
           (New (Env := unit) 1000000000 None []) tt 0).
  - discriminate.
  - unfold Int64.in_range, Int64.min_int, Int64.max_int. cbn. lia.
  - exact I.
  - constructor.
  - cbn [put_times_ascend New TTL].
    unfold Int64.in_range, Int64.min_int, Int64.max_int.
    repeat split; vm_compute; intros Hx; discriminate Hx.
Defined.

(** A store in deadline order swept at reading 1000. *)
Lemma sweep_of_ordered_store_is_complete_witness :
  exists gone live,
    [item 500 (Some 1%nat); item 900 (Some 2%nat); item 1500 (Some 3%nat)] =
    gone ++ live /\
    all_due 1000 gone /\
    Forall (fun r => 1000 < expire r) live /\
    checkExpireItems ExitUnwinds 1000
      (mkPool
         [item 500 (Some 1%nat); item 900 (Some 2%nat); item 1500 (Some 3%nat)]
         false 1000000000 None (Some recordExpire)) [] =
    (mkPool live false 1000000000 None (Some recordExpire),
     teardown_opt (Some recordExpire) gone [], false).
Proof.
  apply (sweep_of_ordered_store_is_complete ExitUnwinds 1000
           (mkPool
              [item 500 (Some 1%nat); item 900 (Some 2%nat);
               item 1500 (Some 3%nat)]
              false 1000000000 None (Some recordExpire)) []).
  - reflexivity.
  - discriminate.
  - lia.
  - cbn. repeat split; repeat constructor; cbn; lia.
Defined.

(** The pool of the previous example after its sweep at 1000, swept again
    at 900. *)
Lemma sweep_again_changes_nothing_witness :
  checkExpireItems ExitUnwinds 900
    (mkPool [item 1500 (Some 3%nat)] false 1000000000 None
       (Some recordExpire)) [Some 1%nat; Some 2%nat] =
  (mkPool [item 1500 (Some 3%nat)] false 1000000000 None (Some recordExpire),
   [Some 1%nat; Some 2%nat], false).
Proof.
  exact (sweep_again_changes_nothing ExitUnwinds 1000 900
           (mkPool
              [item 500 (Some 1%nat); item 900 (Some 2%nat);
               item 1500 (Some 3%nat)]
              false 1000000000 None (Some recordExpire)) []
           eq_refl ltac:(lia)).
Defined.

(** Two [Put]s, a sweep, a [Close], a refused [Put] and the sweep of the
    closed pool: the two values taken in are in the record or in the
    store. *)
Lemma every_item_is_stored_or_torn_down_once_witness :
  snd (run ExitUnwinds
         [CallPut 10 (Some 1%nat); CallPut 20 (Some 2%nat); CallSweep 1015;
          CallClose; CallPut 30 (Some 3%nat); CallSweep 1016]
         (New 1000000000 None [Some recordExpire], [])) ++
  map value
    (list_ (fst (run ExitUnwinds
                   [CallPut 10 (Some 1%nat); CallPut 20 (Some 2%nat);
                    CallSweep 1015; CallClose; CallPut 30 (Some 3%nat);
                    CallSweep 1016]
                   (New 1000000000 None [Some recordExpire], [])))) =
  [Some 1%nat; Some 2%nat].
Proof.
  exact (every_item_is_stored_or_torn_down_once ExitUnwinds
           [CallPut 10 (Some 1%nat); CallPut 20 (Some 2%nat); CallSweep 1015;
            CallClose; CallPut 30 (Some 3%nat); CallSweep 1016]
           (New 1000000000 None [Some recordExpire]) [] eq_refl
           ltac:(repeat constructor)).
Defined.

(** A group that holds a breaker under "a": [Get] returns it and changes
    nothing. *)
Lemma BreakerGroup_Get_creates_once_witness :
  BreakerGroup_Get (fun w : unit => (O, w)) "a"%string
    (breakers_set NewBreakerGroup "a"%string 2%nat) tt =
  (2%nat, breakers_set NewBreakerGroup "a"%string 2%nat, tt).
Proof.
  exact (proj1 (proj2 (proj2 (BreakerGroup_Get_creates_once
                                (fun w : unit => (O, w)) "a"%string
                                (breakers_set NewBreakerGroup "a"%string 2%nat)
                                tt)))
           2%nat eq_refl).
Defined.

(** The counting breaker under "a" has seen three rejections and refuses:
    [Do] returns its error and counts one rejection more. *)
Lemma BreakerGroup_Do_refused_never_runs_witness :
  BreakerGroup_Do (H := countingBreaker) (fun w : unit => (O, w)) "a"%string
    (fun w => (None, w))
    (fun err w => (match err with None => true | Some _ => false end, w))
    (breakers_set NewBreakerGroup "a"%string 3%nat) tt =
  (Some "open"%string,
   breakers_set (breakers_set NewBreakerGroup "a"%string 3%nat) "a"%string
     4%nat,
   tt).
Proof.
  exact (proj2 (BreakerGroup_Do_refused_never_runs (H := countingBreaker)
                  (fun w : unit => (O, w)) "a"%string
                  (fun w => (None, w))
                  (fun err w =>
                     (match err with None => true | Some _ => false end, w))
                  (breakers_set NewBreakerGroup "a"%string 3%nat) tt
                  "open"%string 3%nat tt eq_refl)).
Defined.

(** An empty group: [Do] makes the breaker, runs the call and returns its
    error. *)
Lemma BreakerGroup_Do_allowed_runs_once_witness :
  fst (fst (BreakerGroup_Do (H := countingBreaker) (fun w : unit => (O, w))
              "a"%string (fun w => (Some "boom"%string, w))
              (fun err w =>
                 (match err with None => true | Some _ => false end, w))
              NewBreakerGroup tt)) = Some "boom"%string.
Proof.
  exact (proj1 (proj1 (BreakerGroup_Do_allowed_runs_once
                         (H := countingBreaker) (fun w : unit => (O, w))
                         "a"%string (fun w => (Some "boom"%string, w))
                         (fun err w =>
                            (match err with
                             | None => true
                             | Some _ => false
                             end, w))
                         NewBreakerGroup tt)
                  O tt eq_refl)).
Defined.

(** Three rows of two columns; the third has no name.  Every entry shows
    the name of the second row. *)
Lemma ParseRows_entries_share_one_record_witness :
  exists rs,
    ParseRows ["id"; "name"]%string
      (map Some
         ([[Some 1%nat; Some 10%nat]] ++
          [Some 2%nat; Some 20%nat] :: [[Some 3%nat; None]])) = Some rs /\
    Records_at rs 0 "name"%string = Some 20%nat /\
    Records_at rs 2 "name"%string = Some 20%nat.
Proof.
  assert (Hd : NoDup ["id"; "name"]%string).
  { constructor.
    - intros [Hx|[]]. discriminate Hx.
    - constructor; [intros []|constructor]. }
  destruct (ParseRows_entries_share_one_record ["id"; "name"]%string
              [[Some 1%nat; Some 10%nat]] [[Some 3%nat; None]]
              [Some 2%nat; Some 20%nat] 1 "name"%string 20%nat
              Hd eq_refl eq_refl)
    as (rs & Hp & _ & Hall).
  - intros r' [<-|[]]. reflexivity.
  - exists rs. split; [exact Hp|]. split; apply Hall; cbn; lia.
Defined.


(** The float operations are stood in for by integers here: the stand-in
    for [ParseFloat] gives the length of its argument.  "12kb" is read as
    the number "12" and the unit "kb". *)
Lemma StrToSize_reads_number_then_unit_witness :
  StrToSize (fun s => Z.of_nat (String.length s)) Z.mul 1024 (fun x => x)
    (fun s => s) "12kb" =
  2048.
Proof.
  exact (proj1 (StrToSize_reads_number_then_unit
                  (fun s => Z.of_nat (String.length s)) Z.mul 1024
                  (fun x => x) (fun s => s))
           "12"%string "kb"%string eq_refl eq_refl).
Defined.

(** "12KB" and its lower-case form, with the same stand-ins. *)
Lemma StrToSize_ignores_case_witness :
  StrToSize (fun s => Z.of_nat (String.length s)) Z.mul 1024 (fun x => x)
    (fun s => s) (ToLower (fun s => s) "12KB") =
  StrToSize (fun s => Z.of_nat (String.length s)) Z.mul 1024 (fun x => x)
    (fun s => s) "12KB".
Proof.
  exact (StrToSize_ignores_case
           (fun s => Z.of_nat (String.length s)) Z.mul 1024
           (fun x => x) (fun s => s) "12KB"%string eq_refl).
Defined.

(** A sign in front: "-5kb" gives -1. *)
Lemma StrToSize_unknown_unit_is_minus_one_witness :
  StrToSize (fun s => Z.of_nat (String.length s)) Z.mul 1024 (fun x => x)
    (fun s => s) "-5kb" =
  -1.
Proof.
  exact (StrToSize_unknown_unit_is_minus_one
           (fun s => Z.of_nat (String.length s)) Z.mul 1024
           (fun x => x) (fun s => s) EmptyString "-"%char "5kb"%string
           eq_refl eq_refl eq_refl eq_refl).
Defined.

End MoreInstances.
